(** * DAPPER baseline data-assimilation methods: a shallow embedding

    Source: [dapper/da_methods/baseline.py] -- [EnCheat], [Climatology],
    [OptInterp], [Var3D] and [fit_sigmoid].

    Numbers.  A numpy [float64] is modelled by [xreal]: a real number, or one
    of the IEEE special values [+inf], [-inf], [nan].  Arithmetic on finite
    values is exact (no rounding, no overflow or underflow, one zero, which
    behaves like [+0.0]); the special values follow numpy (a division by zero
    or the logarithm of a non-positive number yields [inf] or [nan] and a
    warning, not an exception). *)

From Stdlib Require Import Reals Lra RNsatz List String ZArith Bool.
Import ListNotations.
Open Scope R_scope.

(* ================================================================== *)
(** * Extended reals: the [float64] model *)
(* ================================================================== *)

Inductive xreal : Type :=
| Fin (r : R)
| PInf
| NInf
| NaN.

Inductive sign : Type := Neg | Zero | Pos.

Definition Rsign (r : R) : sign :=
  match total_order_T r 0 with
  | inleft (left _) => Neg
  | inleft (right _) => Zero
  | inright _ => Pos
  end.

Definition sign_opp (s : sign) : sign :=
  match s with Neg => Pos | Zero => Zero | Pos => Neg end.

(** [inf * 0] and [0 / 0] are [nan]. *)
Definition inf_of_sign (s : sign) : xreal :=
  match s with Pos => PInf | Neg => NInf | Zero => NaN end.

Definition xneg (x : xreal) : xreal :=
  match x with
  | Fin r => Fin (- r)
  | PInf => NInf
  | NInf => PInf
  | NaN => NaN
  end.

Definition xadd (x y : xreal) : xreal :=
  match x, y with
  | NaN, _ | _, NaN => NaN
  | Fin a, Fin b => Fin (a + b)
  | PInf, NInf | NInf, PInf => NaN
  | PInf, _ | _, PInf => PInf
  | NInf, _ | _, NInf => NInf
  end.

Definition xsub (x y : xreal) : xreal := xadd x (xneg y).

Definition xmul (x y : xreal) : xreal :=
  match x, y with
  | NaN, _ | _, NaN => NaN
  | Fin a, Fin b => Fin (a * b)
  | Fin a, PInf | PInf, Fin a => inf_of_sign (Rsign a)
  | Fin a, NInf | NInf, Fin a => inf_of_sign (sign_opp (Rsign a))
  | PInf, PInf | NInf, NInf => PInf
  | PInf, NInf | NInf, PInf => NInf
  end.

Definition xdiv (x y : xreal) : xreal :=
  match x, y with
  | NaN, _ | _, NaN => NaN
  | Fin a, Fin b =>
      match Rsign b with
      | Zero => inf_of_sign (Rsign a)
      | _ => Fin (a / b)
      end
  | Fin _, PInf | Fin _, NInf => Fin 0
  | PInf, Fin b => match Rsign b with Neg => NInf | _ => PInf end
  | NInf, Fin b => match Rsign b with Neg => PInf | _ => NInf end
  | _, _ => NaN
  end.

Definition xexp (x : xreal) : xreal :=
  match x with
  | Fin r => Fin (exp r)
  | PInf => PInf
  | NInf => Fin 0
  | NaN => NaN
  end.

Definition xlog (x : xreal) : xreal :=
  match x with
  | Fin r =>
      match Rsign r with
      | Pos => Fin (ln r)
      | Zero => NInf
      | Neg => NaN
      end
  | PInf => PInf
  | NInf => NaN
  | NaN => NaN
  end.

Definition is_finite (x : xreal) : bool :=
  match x with Fin _ => true | _ => false end.

(* ================================================================== *)
(** * [fit_sigmoid] *)
(* ================================================================== *)

(** [def fit_sigmoid(Sb,L,kb)]: returns the closure [S].  The arguments are
    taken as numpy floats, as they are at every call in the file ([Sb] is a
    ratio of traces, [L] comes from [estimate_corr_length]), so that [1/L]
    and [s/(1-s)] with a zero divisor give [inf] or [nan] and do not raise. *)
Definition fit_sigmoid (Sb L kb : xreal) : xreal -> xreal :=
  let sigmoid := fun k => xdiv (Fin 1) (xadd (Fin 1) (xexp (xneg k))) in
  let inv_sig := fun s => xlog (xdiv s (xsub (Fin 1) s)) in
  let a := xdiv (Fin 1) L in
  let b := inv_sig Sb in
  let S := fun k => sigmoid (xadd b (xmul a (xsub k kb))) in
  S.

(** The real function that the normalized sigmoid computes on finite
    arguments; used to state what [fit_sigmoid] returns. *)
Definition logistic (x : R) : R := 1 / (1 + exp (- x)).

(** An anchor that is no number of the closed interval from 0 to 1: a number
    below 0 or above 1, an infinity, or [nan]. *)
Definition anchor_out (Sb : xreal) : Prop :=
  match Sb with
  | Fin r => r < 0 \/ 1 < r
  | _ => True
  end.

(* ================================================================== *)
(** * Arrays: the interface the methods are written against *)
(* ================================================================== *)

(** [baseline.py] starts with [from dapper import *]: the array operations
    (numpy's [@], [.T], [eye], [trace], [mean], [np.cov], [isfinite], ...)
    and the dapper helpers ([mrdiv], [center], [CovMat]) are not defined in
    the file.  The methods are embedded over this interface; a concrete
    instance for two-dimensional states is given further down.

    Modelled from the spec: [mrdiv] is total (section 7: "the division must
    use a robust (pseudo-inverse-backed or regularized) solver rather than
    exact inversion"). *)
Class LinAlg : Type := {
  Vec : Type;                      (* 1-d arrays: states, observations *)
  Mat : Type;                      (* 2-d arrays *)
  Traj : Type;                     (* the N x M array [xx] *)
  Flat : Type;                     (* a flattened array *)
  CovMat : Type;                   (* dapper's [CovMat] objects *)
  matmul : Mat -> Mat -> Mat;      (* [A @ B] *)
  transpose : Mat -> Mat;          (* [A.T] *)
  madd : Mat -> Mat -> Mat;        (* [A + B] *)
  msub : Mat -> Mat -> Mat;        (* [A - B] *)
  mscale : xreal -> Mat -> Mat;    (* [s*A], [A*s], [A *= s] *)
  mdivs : Mat -> xreal -> Mat;     (* [A / s] *)
  eye : nat -> Mat;                (* [eye(n)] *)
  trace : Mat -> xreal;            (* [trace(A)] *)
  all_isfinite : Mat -> bool;      (* [np.all(np.isfinite(A))] *)
  matvec : Mat -> Vec -> Vec;      (* [A @ v] *)
  vadd : Vec -> Vec -> Vec;        (* [u + v] *)
  vsub : Vec -> Vec -> Vec;        (* [u - v] *)
  mean0 : Traj -> Vec;             (* [mean(xx,0)] *)
  tsubv : Traj -> Vec -> Traj;     (* [xx - muC] (broadcast over rows) *)
  tmatmul : Traj -> Traj -> Mat;   (* [A.T @ B] *)
  shape0 : Traj -> Z;              (* [xx.shape[0]] *)
  cov : Traj -> Mat;               (* [np.cov(xx.T)] *)
  ravelF : Traj -> Flat;           (* [A.ravel(order='F')] *)
  center : Traj -> Traj * Vec;     (* [center(xx)] *)
  mrdiv : Mat -> Mat -> Mat;       (* [mrdiv(b,A)], b/A *)
  CovMat_A : Traj -> CovMat;       (* [CovMat(AC,'A')] *)
  full : CovMat -> Mat             (* [C.full] *)
}.

(* ================================================================== *)
(** * Exceptions *)
(* ================================================================== *)

Inductive exn : Type :=
| AssimFailedError (msg : string)
| IndexError
| ValueError.

(** The outcome of a block of statements: it ran to its end with the local
    variables [a], or an exception left it. *)
Inductive outcome (A : Type) : Type :=
| Done (a : A)
| Raised (e : exn).
Arguments Done {A} a.
Arguments Raised {A} e.

Section Methods.

Context {LA : LinAlg}.

(* ================================================================== *)
(** * The collaborators: ticker, model, statistics *)
(* ================================================================== *)

(** One item of [chrono.ticker]: [(k,kObs,t,dt)]. *)
Record Tick : Type := mkTick {
  tk_k : Z;
  tk_kObs : option nat;
  tk_t : xreal;
  tk_dt : xreal
}.

(** The fields of [HMM] the methods read.  [Obs_linear] takes [None] for the
    placeholder [np.nan] that [OptInterp] passes instead of a state. *)
Record HMM : Type := mkHMM {
  Dyn : Vec -> xreal -> xreal -> Vec;          (* [HMM.Dyn(x,t,dt)] *)
  Dyn_M : nat;                                 (* [HMM.Dyn.M] *)
  Obs : Vec -> xreal -> Vec;                   (* [HMM.Obs(x,t)] *)
  Obs_linear : option Vec -> xreal -> Mat;     (* [HMM.Obs.linear(x,t)] *)
  Obs_noise_C : CovMat;                        (* [HMM.Obs.noise.C] *)
  ticker : list Tick;                          (* [HMM.t.ticker] *)
  X0_mu : Vec;                                 (* [HMM.X0.mu] *)
  X0_C : CovMat                                (* [HMM.X0.C] *)
}.

(** The [Cov] argument of [stats.assess] is a [CovMat] object in
    [Climatology] and an array elsewhere. *)
Inductive CovArg : Type :=
| CovObj (c : CovMat)
| CovArr (m : Mat).

(** One call [stats.assess(k,kObs,faus,mu=..,Cov=..)]; an argument that is
    left out is [None]. *)
Record Assessment : Type := mkAssess {
  a_k : Z;
  a_kObs : option nat;
  a_faus : option string;
  a_mu : Vec;
  a_Cov : CovArg
}.

(** The statistics object: the calls of [assess] it has received, oldest
    first, and the series [trHK]. *)
Record Stats : Type := mkStats {
  assessments : list Assessment;
  trHK : list xreal
}.

Definition assess (stats : Stats) (k : Z) (kObs : option nat)
    (faus : option string) (mu : Vec) (Cov : CovArg) : Stats :=
  mkStats (assessments stats ++ [mkAssess k kObs faus mu Cov]) (trHK stats).

(** [stats.trHK[:] = 0] *)
Definition trHK_fill_zero (stats : Stats) : Stats :=
  mkStats (assessments stats) (map (fun _ => Fin 0) (trHK stats)).

(** [for k,kObs,t,dt in progbar(chrono.ticker): body]; an exception raised by
    the body ends the loop, with the statistics as they are by then. *)
Fixpoint for_ticks {L : Type} (body : Stats -> L -> Tick -> Stats * outcome L)
    (ticks : list Tick) (stats : Stats) (l : L) : Stats * outcome L :=
  match ticks with
  | [] => (stats, Done l)
  | tk :: rest =>
      match body stats l tk with
      | (stats', Done l') => for_ticks body rest stats' l'
      | (stats', Raised e) => (stats', Raised e)
      end
  end.

(* ================================================================== *)
(** * [EnCheat] and [Climatology] *)
(* ================================================================== *)

Definition EnCheat_assimilator (stats : Stats) (hmm : HMM) (xx : Traj)
    (yy : list Vec) : Stats * outcome unit :=
  (stats, Done tt).

Definition Climatology_tick (muC : Vec) (PC : CovMat) (stats : Stats)
    (l : unit) (tk : Tick) : Stats * outcome unit :=
  let fau := match tk_kObs tk with None => "u"%string | Some _ => "fau"%string end in
  (assess stats (tk_k tk) (tk_kObs tk) (Some fau) muC (CovObj PC), Done tt).

Definition Climatology_assimilator (stats : Stats) (hmm : HMM) (xx : Traj)
    (yy : list Vec) : Stats * outcome unit :=
  let muC := mean0 xx in
  let AC := tsubv xx muC in
  let PC := CovMat_A AC in
  let stats := assess stats 0 None None muC (CovObj PC) in
  let stats := trHK_fill_zero stats in
  for_ticks (Climatology_tick muC PC) (ticker hmm) stats tt.

(* ================================================================== *)
(** * [OptInterp] *)
(* ================================================================== *)

Variable estimate_corr_length : Flat -> xreal.

Definition OptInterp_msg : string :=
  "For speed, only time-independent H is supported.".

(** The local variables of [OptInterp]'s assimilator. *)
Record OI_locals : Type := mkOI {
  oi_H : Mat;
  oi_muC : Vec;
  oi_AC : Traj;
  oi_PC : Mat;
  oi_KG : Mat;
  oi_P : Mat;
  oi_L : xreal;
  oi_SM : xreal -> xreal;
  oi_mu : Vec
}.

(** Lines 49-68: everything before the loop. *)
Definition OptInterp_setup (stats : Stats) (hmm : HMM) (xx : Traj)
    : Stats * outcome OI_locals :=
  let H := Obs_linear hmm None NaN in
  if negb (all_isfinite H) then (stats, Raised (AssimFailedError OptInterp_msg))
  else
    let muC := mean0 xx in
    let AC := tsubv xx muC in
    let PC := mdivs (tmatmul AC AC) (Fin (IZR (shape0 xx - 1))) in
    let KG := mrdiv (matmul PC (transpose H))
                    (madd (matmul (matmul H PC) (transpose H))
                          (full (Obs_noise_C hmm))) in
    let P := matmul (msub (eye (Dyn_M hmm)) (matmul KG H)) PC in
    let L := estimate_corr_length (ravelF AC) in
    let SM := fit_sigmoid (xdiv (trace P) (trace (mscale (Fin 2) PC))) L (Fin 0) in
    let mu := muC in
    let stats := assess stats 0 None None mu (CovArr PC) in
    (stats, Done (mkOI H muC AC PC KG P L SM mu)).

(** Lines 71-79: the body of the loop. *)
Definition OptInterp_tick (hmm : HMM) (yy : list Vec) (stats : Stats)
    (l : OI_locals) (tk : Tick) : Stats * outcome OI_locals :=
  let k := tk_k tk in
  let t := tk_t tk in
  let dt := tk_dt tk in
  let mu := Dyn hmm (oi_mu l) (xsub t dt) dt in
  match tk_kObs tk with
  | Some kObs =>
      let stats := assess stats k (Some kObs) (Some "f"%string)
                          (oi_muC l) (CovArr (oi_PC l)) in
      match nth_error yy kObs with
      | None => (stats, Raised IndexError)
      | Some y =>
          let mu := vadd (oi_muC l)
                         (matvec (oi_KG l) (vsub y (Obs hmm (oi_muC l) t))) in
          let SM := fit_sigmoid (xdiv (trace (oi_P l)) (trace (oi_PC l)))
                                (oi_L l) (Fin (IZR k)) in
          let stats := assess stats k (Some kObs) None mu
                         (CovArr (mscale (SM (Fin (IZR k)))
                                         (mscale (Fin 2) (oi_PC l)))) in
          (stats, Done (mkOI (oi_H l) (oi_muC l) (oi_AC l) (oi_PC l) (oi_KG l)
                             (oi_P l) (oi_L l) SM mu))
      end
  | None =>
      let stats := assess stats k None None mu
                     (CovArr (mscale (oi_SM l (Fin (IZR k)))
                                     (mscale (Fin 2) (oi_PC l)))) in
      (stats, Done (mkOI (oi_H l) (oi_muC l) (oi_AC l) (oi_PC l) (oi_KG l)
                         (oi_P l) (oi_L l) (oi_SM l) mu))
  end.

(** The body of the assimilator, run over the ticks [ticks]; the result
    carries the values of the locals at the end. *)
Definition OptInterp_run (stats : Stats) (hmm : HMM) (xx : Traj)
    (yy : list Vec) (ticks : list Tick) : Stats * outcome OI_locals :=
  match OptInterp_setup stats hmm xx with
  | (stats', Done l) => for_ticks (OptInterp_tick hmm yy) ticks stats' l
  | (stats', Raised e) => (stats', Raised e)
  end.

(** The assimilator runs over the whole of [chrono.ticker].  Where a run
    stands after its first [n] ticks is
    [OptInterp_run stats hmm xx yy (firstn n (ticker hmm))]. *)
Definition OptInterp_assimilator (stats : Stats) (hmm : HMM) (xx : Traj)
    (yy : list Vec) : Stats * outcome OI_locals :=
  OptInterp_run stats hmm xx yy (ticker hmm).

(* ================================================================== *)
(** * [Var3D] *)
(* ================================================================== *)

(** The values of the argument [B]: [None], ['clim'] or an array. *)
Inductive Bval : Type :=
| B_None
| B_clim
| B_arr (m : Mat).

(** What [Var3D(B,xB)] closes over.  [B] is declared [nonlocal] in the
    assimilator and assigned there, so it is state of the configured method
    and outlives a call. *)
Record Var3D_closure : Type := mkVar3D {
  cl_B : Bval;
  cl_xB : xreal
}.

Definition Var3D (B : Bval) (xB : xreal) : Var3D_closure := mkVar3D B xB.

(** The local variables of [Var3D]'s assimilator, with the array that [B]
    holds after lines 96-99.  [H] and [KG] are unbound until the first
    analysis. *)
Record V3_locals : Type := mkV3 {
  v3_B : Mat;
  v3_CC : Mat;
  v3_L : xreal;
  v3_P : Mat;
  v3_SM : xreal -> xreal;
  v3_mu : Vec;
  v3_H : option Mat;
  v3_KG : option Mat
}.

(** The test [B in (None,'clim')] when [B] holds an array.  Python evaluates
    [None == B], which numpy answers: from version 1.13 on with the array of
    the elementwise comparisons, all [False], whose truth value is [False]
    for an array of one element and raises [ValueError] for an array of more
    than one; before 1.13 with a plain [False].  The test never answers
    [True] for an array.  [array_in_raises B] tells whether it raises for the
    array [B]. *)
Variable array_in_raises : Mat -> bool.

(** Lines 96-99: [if B in (None,'clim'): B = np.cov(xx.T)] and [B *= xB];
    the result is the array that [B] holds from then on. *)
Definition Var3D_resolve_B (c : Var3D_closure) (xx : Traj) : outcome Mat :=
  match cl_B c with
  | B_None | B_clim => Done (mscale (cl_xB c) (cov xx))
  | B_arr m =>
      if array_in_raises m then Raised ValueError
      else Done (mscale (cl_xB c) m)
  end.

(** Lines 102-109. *)
Definition Var3D_setup (B : Mat) (stats : Stats) (hmm : HMM) (xx : Traj)
    : Stats * V3_locals :=
  let CC := mscale (Fin 2) (cov xx) in
  let L := estimate_corr_length (ravelF (fst (center xx))) in
  let P := full (X0_C hmm) in
  let SM := fit_sigmoid (xdiv (trace P) (trace CC)) L (Fin 0) in
  let mu := X0_mu hmm in
  let stats := assess stats 0 None None mu (CovArr P) in
  (stats, mkV3 B CC L P SM mu None None).

(** Lines 112-128: the body of the loop. *)
Definition Var3D_tick (hmm : HMM) (yy : list Vec) (stats : Stats)
    (l : V3_locals) (tk : Tick) : Stats * outcome V3_locals :=
  let k := tk_k tk in
  let t := tk_t tk in
  let dt := tk_dt tk in
  let B := v3_B l in
  let mu := Dyn hmm (v3_mu l) (xsub t dt) dt in
  let P := mscale (v3_SM l (Fin (IZR k))) (v3_CC l) in
  match tk_kObs tk with
  | Some kObs =>
      let stats := assess stats k (Some kObs) (Some "f"%string) mu (CovArr P) in
      let H := Obs_linear hmm (Some mu) t in
      let KG := mrdiv (matmul B (transpose H))
                      (madd (matmul (matmul H B) (transpose H))
                            (full (Obs_noise_C hmm))) in
      match nth_error yy kObs with
      | None => (stats, Raised IndexError)
      | Some y =>
          let mu := vadd mu (matvec KG (vsub y (Obs hmm mu t))) in
          let P := matmul (msub (eye (Dyn_M hmm)) (matmul KG H)) B in
          let SM := fit_sigmoid (xdiv (trace P) (trace (v3_CC l)))
                                (v3_L l) (Fin (IZR k)) in
          let stats := assess stats k (Some kObs) None mu (CovArr P) in
          (stats, Done (mkV3 B (v3_CC l) (v3_L l) P SM mu (Some H) (Some KG)))
      end
  | None =>
      let stats := assess stats k None None mu (CovArr P) in
      (stats, Done (mkV3 B (v3_CC l) (v3_L l) P (v3_SM l) mu
                         (v3_H l) (v3_KG l)))
  end.

(** The body of the assimilator, run over the ticks [ticks]: it returns the
    closure as the call leaves it, the statistics, and the values of the
    locals at the end.  When the test on [B] raises, nothing has been
    assigned or assessed. *)
Definition Var3D_run (c : Var3D_closure) (stats : Stats) (hmm : HMM)
    (xx : Traj) (yy : list Vec) (ticks : list Tick)
    : Var3D_closure * (Stats * outcome V3_locals) :=
  match Var3D_resolve_B c xx with
  | Raised e => (c, (stats, Raised e))
  | Done B =>
      let c' := mkVar3D (B_arr B) (cl_xB c) in
      let '(stats', l) := Var3D_setup B stats hmm xx in
      (c', for_ticks (Var3D_tick hmm yy) ticks stats' l)
  end.

Definition Var3D_assimilator (c : Var3D_closure) (stats : Stats) (hmm : HMM)
    (xx : Traj) (yy : list Vec)
    : Var3D_closure * (Stats * outcome V3_locals) :=
  Var3D_run c stats hmm xx yy (ticker hmm).

(** The assessment [Climatology] emits at a tick. *)
Definition Climatology_entry (muC : Vec) (PC : CovMat) (tk : Tick) : Assessment :=
  mkAssess (tk_k tk) (tk_kObs tk)
    (Some match tk_kObs tk with None => "u"%string | Some _ => "fau"%string end)
    muC (CovObj PC).

(** The locals that the loop of [OptInterp] never assigns. *)
Definition OI_frame (l0 l : OI_locals) : Prop :=
  oi_H l = oi_H l0 /\ oi_muC l = oi_muC l0 /\ oi_AC l = oi_AC l0
  /\ oi_PC l = oi_PC l0 /\ oi_KG l = oi_KG l0 /\ oi_P l = oi_P l0
  /\ oi_L l = oi_L l0.

(** Two states of [OptInterp] that agree on everything but the correlation
    length and the sigmoid. *)
Definition OI_agree (l1 l2 : OI_locals) : Prop :=
  oi_H l1 = oi_H l2 /\ oi_muC l1 = oi_muC l2 /\ oi_AC l1 = oi_AC l2
  /\ oi_PC l1 = oi_PC l2 /\ oi_KG l1 = oi_KG l2 /\ oi_P l1 = oi_P l2
  /\ oi_mu l1 = oi_mu l2.

(** The gain of [Var3D] for a background [B] and a linearization [H]. *)
Definition Var3D_gain (hmm : HMM) (B H : Mat) : Mat :=
  mrdiv (matmul B (transpose H))
        (madd (matmul (matmul H B) (transpose H)) (full (Obs_noise_C hmm))).

(** What the loop of [Var3D] keeps: [B], [CC] and [L] are not assigned, and
    [H] and [KG], once bound, are a linearization of the operator and the
    gain for it and [B]. *)
Definition V3_inv (hmm : HMM) (B CC : Mat) (L : xreal) (l : V3_locals) : Prop :=
  v3_B l = B /\ v3_CC l = CC /\ v3_L l = L
  /\ match v3_KG l with
     | None => v3_H l = None
     | Some KG =>
         exists mu t,
           v3_H l = Some (Obs_linear hmm (Some mu) t)
           /\ KG = Var3D_gain hmm B (Obs_linear hmm (Some mu) t)
     end.

(** Two states of [Var3D] that agree on everything but the correlation
    length, the sigmoid and the covariance [P] it scales. *)
Definition V3_agree (l1 l2 : V3_locals) : Prop :=
  v3_B l1 = v3_B l2 /\ v3_CC l1 = v3_CC l2 /\ v3_mu l1 = v3_mu l2
  /\ v3_H l1 = v3_H l2 /\ v3_KG l1 = v3_KG l2.

(** [B] is the climatological covariance of [xx]: left to the method, or
    given as that array (when the test on [B] lets an array pass). *)
Definition B_is_clim (xx : Traj) (B0 : Bval) : Prop :=
  B0 = B_None \/ B0 = B_clim
  \/ (B0 = B_arr (cov xx) /\ array_in_raises (cov xx) = false).

(** The locals of [OptInterp] with another value of [mu]. *)
Definition OI_with_mu (l : OI_locals) (mu : Vec) : OI_locals :=
  mkOI (oi_H l) (oi_muC l) (oi_AC l) (oi_PC l) (oi_KG l) (oi_P l) (oi_L l)
       (oi_SM l) mu.

(** An assessment without its covariance, and the statistics without the
    covariances: what a change of the reported covariances leaves alone. *)
Definition assessment_sans_cov (a : Assessment)
    : Z * option nat * option string * Vec :=
  (a_k a, a_kObs a, a_faus a, a_mu a).

Definition stats_sans_cov (stats : Stats)
    : list (Z * option nat * option string * Vec) * list xreal :=
  (map assessment_sans_cov (assessments stats), trHK stats).

(** Every observation index of the ticks has its observation in [yy]. *)
Definition obs_in_range (ticks : list Tick) (yy : list Vec) : Prop :=
  forall tk j, In tk ticks -> tk_kObs tk = Some j -> (j < List.length yy)%nat.

(** The head of an assessment: step, observation index and tag. *)
Definition assessment_head (a : Assessment) : Z * option nat * option string :=
  (a_k a, a_kObs a, a_faus a).

(** The heads of the assessments that [OptInterp] and [Var3D] emit at a
    tick: the forecast and then the analysis at an observation time, one
    assessment otherwise. *)
Definition tick_heads (tk : Tick) : list (Z * option nat * option string) :=
  match tk_kObs tk with
  | Some kObs =>
      [(tk_k tk, Some kObs, Some "f"%string); (tk_k tk, Some kObs, None)]
  | None => [(tk_k tk, None, None)]
  end.

End Methods.

(* ================================================================== *)
(** * The algebra of finite arrays *)
(* ================================================================== *)

(** What the perfect-observation limit and the closed form of the gain use
    of linear algebra.  [is_mat m n A]: [A] is an [m] x [n] array without
    [inf] or [nan]; [is_vec n v] likewise.  (With a non-finite entry even
    [eye(n) @ A = A] fails, [0 * inf] being [nan].)  [zeros m n] is the array
    of zeros. *)
Class LinAlgLaws (LA : LinAlg) : Type := {
  is_mat : nat -> nat -> Mat -> Prop;
  is_vec : nat -> Vec -> Prop;
  zeros : nat -> nat -> Mat;
  transpose_eye : forall n, transpose (eye n) = eye n;
  matmul_eye_r : forall m n A, is_mat m n A -> matmul A (eye n) = A;
  matmul_eye_l : forall m n A, is_mat m n A -> matmul (eye m) A = A;
  madd_zeros_r : forall m n A, is_mat m n A -> madd A (zeros m n) = A;
  mscale_one : forall A, mscale (Fin 1) A = A;
  mrdiv_inverse : forall m n b A Ai,
    is_mat m n b -> is_mat n n A -> is_mat n n Ai ->
    matmul A Ai = eye n -> matmul Ai A = eye n ->
    mrdiv b A = matmul b Ai;
  matvec_eye : forall n v, is_vec n v -> matvec (eye n) v = v;
  is_vec_vsub : forall n u v, is_vec n u -> is_vec n v -> is_vec n (vsub u v);
  vadd_vsub : forall n u v, is_vec n u -> is_vec n v -> vadd u (vsub v u) = v
}.

(* ================================================================== *)
(** * A concrete instance: two-dimensional states and observations *)
(* ================================================================== *)

Module Dim2.

Record V2 : Type := mkV2 { vx : xreal; vy : xreal }.

Record M2 : Type := mkM2 {
  m11 : xreal; m12 : xreal;
  m21 : xreal; m22 : xreal
}.

Definition m2_matmul (A B : M2) : M2 :=
  mkM2 (xadd (xmul (m11 A) (m11 B)) (xmul (m12 A) (m21 B)))
       (xadd (xmul (m11 A) (m12 B)) (xmul (m12 A) (m22 B)))
       (xadd (xmul (m21 A) (m11 B)) (xmul (m22 A) (m21 B)))
       (xadd (xmul (m21 A) (m12 B)) (xmul (m22 A) (m22 B))).

Definition m2_transpose (A : M2) : M2 :=
  mkM2 (m11 A) (m21 A) (m12 A) (m22 A).

Definition m2_map2 (f : xreal -> xreal -> xreal) (A B : M2) : M2 :=
  mkM2 (f (m11 A) (m11 B)) (f (m12 A) (m12 B))
       (f (m21 A) (m21 B)) (f (m22 A) (m22 B)).

Definition m2_map (f : xreal -> xreal) (A : M2) : M2 :=
  mkM2 (f (m11 A)) (f (m12 A)) (f (m21 A)) (f (m22 A)).

Definition m2_eye : M2 := mkM2 (Fin 1) (Fin 0) (Fin 0) (Fin 1).

Definition m2_zeros : M2 := mkM2 (Fin 0) (Fin 0) (Fin 0) (Fin 0).

Definition m2_trace (A : M2) : xreal := xadd (m11 A) (m22 A).

Definition m2_all_isfinite (A : M2) : bool :=
  is_finite (m11 A) && is_finite (m12 A) && is_finite (m21 A) && is_finite (m22 A).

Definition m2_matvec (A : M2) (v : V2) : V2 :=
  mkV2 (xadd (xmul (m11 A) (vx v)) (xmul (m12 A) (vy v)))
       (xadd (xmul (m21 A) (vx v)) (xmul (m22 A) (vy v))).

Definition v2_map2 (f : xreal -> xreal -> xreal) (u v : V2) : V2 :=
  mkV2 (f (vx u) (vx v)) (f (vy u) (vy v)).

Definition xsum (l : list xreal) : xreal := fold_left xadd l (Fin 0).

(** A trajectory is the list of its rows. *)
Definition t_mean0 (xx : list V2) : V2 :=
  let n := Fin (INR (List.length xx)) in
  mkV2 (xdiv (xsum (map vx xx)) n) (xdiv (xsum (map vy xx)) n).

Definition t_subv (xx : list V2) (mu : V2) : list V2 :=
  map (fun x => v2_map2 xsub x mu) xx.

Definition t_matmul (A B : list V2) : M2 :=
  let rows := combine A B in
  mkM2 (xsum (map (fun ab => xmul (vx (fst ab)) (vx (snd ab))) rows))
       (xsum (map (fun ab => xmul (vx (fst ab)) (vy (snd ab))) rows))
       (xsum (map (fun ab => xmul (vy (fst ab)) (vx (snd ab))) rows))
       (xsum (map (fun ab => xmul (vy (fst ab)) (vy (snd ab))) rows)).

(** The covariance of anomalies: [A.T @ A / (N-1)]. *)
Definition t_cov_of_anomalies (A : list V2) : M2 :=
  m2_map (fun a => xdiv a (Fin (INR (List.length A) - 1))) (t_matmul A A).

Definition t_cov (xx : list V2) : M2 :=
  t_cov_of_anomalies (t_subv xx (t_mean0 xx)).

(** Column-major flattening: the first components, then the second. *)
Definition t_ravelF (xx : list V2) : list xreal :=
  map vx xx ++ map vy xx.

Definition t_center (xx : list V2) : list V2 * V2 :=
  (t_subv xx (t_mean0 xx), t_mean0 xx).

(** The Moore-Penrose inverse of a real 2x2 matrix [[a b] [c d]]: the inverse
    when the determinant is not zero, the transpose over the squared
    Frobenius norm when the rank is one, zero for the zero matrix. *)
Definition R4_pinv (a b c d : R) : R * R * R * R :=
  let det := a * d - b * c in
  match Rsign det with
  | Zero =>
      let n := a * a + b * b + c * c + d * d in
      match Rsign n with
      | Zero => (0, 0, 0, 0)
      | _ => (a / n, c / n, b / n, d / n)
      end
  | _ => (d / det, - b / det, - c / det, a / det)
  end.

(** Modelled from the spec: [mrdiv] is not in the source file; section 7
    asks for a pseudo-inverse-backed division, so [mrdiv(b,A)] is
    [b @ pinv(A)].  An array with a non-finite entry gives [nan]s. *)
Definition m2_mrdiv (b A : M2) : M2 :=
  match A with
  | mkM2 (Fin a11) (Fin a12) (Fin a21) (Fin a22) =>
      if m2_all_isfinite b then
        let '(p11, p12, p21, p22) := R4_pinv a11 a12 a21 a22 in
        m2_matmul b (mkM2 (Fin p11) (Fin p12) (Fin p21) (Fin p22))
      else mkM2 NaN NaN NaN NaN
  | _ => mkM2 NaN NaN NaN NaN
  end.

(** [eye(n)] is only used with [n = Dyn.M], which is 2 in this instance. *)
#[export] Instance LA2 : LinAlg := {|
  Vec := V2;
  Mat := M2;
  Traj := list V2;
  Flat := list xreal;
  CovMat := M2;
  matmul := m2_matmul;
  transpose := m2_transpose;
  madd := m2_map2 xadd;
  msub := m2_map2 xsub;
  mscale := fun s => m2_map (xmul s);
  mdivs := fun A s => m2_map (fun a => xdiv a s) A;
  eye := fun _ => m2_eye;
  trace := m2_trace;
  all_isfinite := m2_all_isfinite;
  matvec := m2_matvec;
  vadd := v2_map2 xadd;
  vsub := v2_map2 xsub;
  mean0 := t_mean0;
  tsubv := t_subv;
  tmatmul := t_matmul;
  shape0 := fun xx => Z.of_nat (List.length xx);
  cov := t_cov;
  ravelF := t_ravelF;
  center := t_center;
  mrdiv := m2_mrdiv;
  CovMat_A := t_cov_of_anomalies;
  full := fun C => C
|}.

(** Finite arrays of this instance; the shape is always 2 x 2, or 2. *)
Definition is_mat2 (m n : nat) (A : M2) : Prop :=
  m = 2%nat /\ n = 2%nat /\ m2_all_isfinite A = true.

Definition is_vec2 (n : nat) (v : V2) : Prop :=
  n = 2%nat /\ is_finite (vx v) && is_finite (vy v) = true.

(** The test [B in (None,'clim')] on an array of this instance, which has
    four elements: it raises with numpy from 1.13 on, and did not before. *)
Definition in_raises_elementwise (B : M2) : bool := true.
Definition in_raises_never (B : M2) : bool := false.

(** A stand-in for dapper's [estimate_corr_length], which is not in the
    source file: the constant estimate 1. *)
Definition unit_corr_length (a : list xreal) : xreal := Fin 1.

Definition fv (x y : R) : V2 := mkV2 (Fin x) (Fin y).

Definition diag2 (a : R) : M2 := mkM2 (Fin a) (Fin 0) (Fin 0) (Fin a).

(** The identity observation operator, and a model that leaves the state
    where it is. *)
Definition obs_id (x : V2) (t : xreal) : V2 := x.
Definition obs_id_linear (x : option V2) (t : xreal) : M2 := m2_eye.
Definition dyn_id (x : V2) (t dt : xreal) : V2 := x.

(** Two ticks, the second one an observation time. *)
Definition tick1 : Tick := mkTick 1 None (Fin 1) (Fin 1).
Definition tick2 : Tick := mkTick 2 (Some 0%nat) (Fin 2) (Fin 1).
Definition ticks2 : list Tick := [tick1; tick2].

(** The identity observation of a standing model, with noise covariance
    [r * I] and initial distribution [N(0, I)]. *)
Definition hmm_id (r : R) : HMM :=
  mkHMM dyn_id 2 obs_id obs_id_linear (diag2 r) ticks2 (fv 0 0) (diag2 1).

(** The same model with the wider initial distribution [N(0, 3*I)]. *)
Definition hmm_wide : HMM :=
  mkHMM dyn_id 2 obs_id obs_id_linear (diag2 1) ticks2 (fv 0 0) (diag2 3).

(** Five states with mean 0 and sample covariance [I]. *)
Definition xx5 : list V2 :=
  [fv 1 1; fv 1 (-1); fv (-1) 1; fv (-1) (-1); fv 0 0].

(** A trajectory that stands still: its sample covariance is zero. *)
Definition xx_still : list V2 := [fv 1 1; fv 1 1; fv 1 1].

Definition empty_stats : Stats := mkStats [] [].

End Dim2.

(* ================================================================== *)
(** * Lemmas on the number model *)
(* ================================================================== *)

Lemma Rsign_pos (r : R) : 0 < r -> Rsign r = Pos.
Proof.
  intros H. unfold Rsign.
  destruct (total_order_T r 0) as [[Hlt | Heq] | Hgt]; try reflexivity; lra.
Qed.

Lemma Rsign_neg (r : R) : r < 0 -> Rsign r = Neg.
Proof.
  intros H. unfold Rsign.
  destruct (total_order_T r 0) as [[Hlt | Heq] | Hgt]; try reflexivity; lra.
Qed.

Lemma Rsign_zero (r : R) : r = 0 -> Rsign r = Zero.
Proof.
  intros H. unfold Rsign.
  destruct (total_order_T r 0) as [[Hlt | Heq] | Hgt]; try reflexivity; lra.
Qed.

Lemma xdiv_fin (a b : R) : b <> 0 -> xdiv (Fin a) (Fin b) = Fin (a / b).
Proof.
  intros H. unfold xdiv, Rsign.
  destruct (total_order_T b 0) as [[Hlt | Heq] | Hgt]; try reflexivity; lra.
Qed.

Lemma xlog_fin (r : R) : 0 < r -> xlog (Fin r) = Fin (ln r).
Proof. intros H. unfold xlog. now rewrite Rsign_pos. Qed.

Lemma xlog_neg (r : R) : r < 0 -> xlog (Fin r) = NaN.
Proof. intros H. unfold xlog. now rewrite Rsign_neg. Qed.

Lemma xlog_zero (r : R) : r = 0 -> xlog (Fin r) = NInf.
Proof. intros H. unfold xlog. now rewrite Rsign_zero. Qed.

Lemma xdiv_fin_zero (a b : R) : 0 < a -> b = 0 -> xdiv (Fin a) (Fin b) = PInf.
Proof.
  intros Ha Hb. unfold xdiv. rewrite (Rsign_zero b Hb), (Rsign_pos a Ha).
  reflexivity.
Qed.

Lemma logistic_pos (x : R) : 0 < logistic x.
Proof.
  unfold logistic. pose proof (exp_pos (- x)).
  apply Rdiv_lt_0_compat; lra.
Qed.

Lemma logistic_lt_1 (x : R) : logistic x < 1.
Proof.
  unfold logistic. pose proof (exp_pos (- x)).
  apply (Rmult_lt_reg_r (1 + exp (- x))); [lra|].
  unfold Rdiv. rewrite Rmult_assoc, Rinv_l; lra.
Qed.

Lemma logistic_incr (x y : R) : x < y -> logistic x < logistic y.
Proof.
  intros H. unfold logistic, Rdiv. rewrite !Rmult_1_l.
  pose proof (exp_pos (- x)). pose proof (exp_pos (- y)).
  apply Rinv_lt_contravar.
  - apply Rmult_lt_0_compat; lra.
  - apply Rplus_lt_compat_l, exp_increasing. lra.
Qed.

Lemma logistic_lt_exp (x : R) : logistic x < exp x.
Proof.
  unfold logistic. pose proof (exp_pos x) as Hx. pose proof (exp_pos (- x)) as Hn.
  assert (He : exp x * exp (- x) = 1).
  { rewrite <- exp_plus. replace (x + - x) with 0 by lra. apply exp_0. }
  apply (Rmult_lt_reg_r (1 + exp (- x))); [lra|].
  unfold Rdiv. rewrite Rmult_assoc, Rinv_l by lra.
  rewrite Rmult_plus_distr_l, He. lra.
Qed.

Lemma logistic_compl (x : R) : 1 - logistic x = logistic (- x).
Proof.
  unfold logistic. rewrite Ropp_involutive.
  pose proof (exp_pos x) as Hx. pose proof (exp_pos (- x)) as Hn.
  assert (He : exp x * exp (- x) = 1).
  { rewrite <- exp_plus. replace (x + - x) with 0 by lra. apply exp_0. }
  assert (Hn' : exp (- x) = / exp x).
  { apply (Rmult_eq_reg_l (exp x)); [|lra]. rewrite He. field. lra. }
  rewrite Hn'. field. split; [lra|].
  intros Hc. assert (0 < exp x + 1) by lra. lra.
Qed.

Lemma logistic_logit (s : R) : 0 < s < 1 -> logistic (ln (s / (1 - s))) = s.
Proof.
  intros [H0 H1]. unfold logistic.
  assert (Hq : 0 < s / (1 - s)) by (apply Rdiv_lt_0_compat; lra).
  rewrite exp_Ropp, exp_ln by exact Hq.
  field. split; lra.
Qed.

(** On valid arguments every intermediate value of [fit_sigmoid] is finite. *)
Lemma fit_sigmoid_fin (Sb L kb k : R) :
  0 < L -> 0 < Sb < 1 ->
  fit_sigmoid (Fin Sb) (Fin L) (Fin kb) (Fin k)
  = Fin (logistic (ln (Sb / (1 - Sb)) + (k - kb) / L)).
Proof.
  intros HL [H0 H1]. unfold fit_sigmoid. cbn [xsub xneg xadd].
  rewrite (xdiv_fin Sb) by lra.
  assert (Hq : 0 < Sb / (1 + - Sb)) by (apply Rdiv_lt_0_compat; lra).
  rewrite xlog_fin by exact Hq.
  rewrite (xdiv_fin 1 L) by lra.
  cbn [xmul xadd xneg xexp].
  pose proof (exp_pos (- (ln (Sb / (1 + - Sb)) + 1 / L * (k + - kb)))) as He.
  rewrite xdiv_fin by lra.
  unfold logistic. do 4 f_equal.
  replace (1 + - Sb) with (1 - Sb) by lra.
  f_equal. f_equal. field. lra.
Qed.

(** The fitted curve passes through its anchor. *)
Lemma fit_sigmoid_anchor (Sb L kb : R) :
  0 < L -> 0 < Sb < 1 ->
  fit_sigmoid (Fin Sb) (Fin L) (Fin kb) (Fin kb) = Fin Sb.
Proof.
  intros HL HSb. rewrite fit_sigmoid_fin by assumption. f_equal.
  replace ((kb - kb) / L) with 0 by (field; lra).
  rewrite Rplus_0_r. now apply logistic_logit.
Qed.

(* ================================================================== *)
(** * The fitted sigmoid *)
(* ================================================================== *)

(** C6.  For [L > 0] and [0 < Sb < 1], [fit_sigmoid(Sb,L,kb)] is the function
    [S(k) = 1/(1 + exp(-(logit(Sb) + (k-kb)/L)))]; it takes the value [Sb] at
    [kb], is strictly increasing, and tends to 0 at minus infinity and to 1
    at plus infinity. *)
Theorem fit_sigmoid_contract (Sb L kb : R) :
  0 < L -> 0 < Sb < 1 ->
  let S := fit_sigmoid (Fin Sb) (Fin L) (Fin kb) in
  let s := fun k => 1 / (1 + exp (- (ln (Sb / (1 - Sb)) + (k - kb) / L))) in
  (forall k, S (Fin k) = Fin (s k))
  /\ S (Fin kb) = Fin Sb
  /\ (forall k1 k2, k1 < k2 -> s k1 < s k2)
  /\ (forall eps, 0 < eps -> exists K, forall k, k < K -> Rabs (s k) < eps)
  /\ (forall eps, 0 < eps -> exists K, forall k, K < k -> Rabs (s k - 1) < eps).
Proof.
  intros HL HSb S s.
  assert (Hs : forall k, s k = logistic (ln (Sb / (1 - Sb)) + (k - kb) / L))
    by reflexivity.
  assert (HLi : 0 < / L) by (apply Rinv_0_lt_compat; exact HL).
  repeat split.
  - intros k. unfold S. now rewrite fit_sigmoid_fin.
  - now apply fit_sigmoid_anchor.
  - intros k1 k2 Hk. rewrite !Hs. apply logistic_incr.
    apply Rplus_lt_compat_l. unfold Rdiv.
    apply Rmult_lt_compat_r; lra.
  - intros eps Heps.
    exists (kb + L * (ln eps - ln (Sb / (1 - Sb)))). intros k Hk.
    rewrite Hs. pose proof (logistic_pos (ln (Sb / (1 - Sb)) + (k - kb) / L)) as Hp.
    rewrite Rabs_pos_eq by lra.
    eapply Rlt_trans; [apply logistic_lt_exp|].
    rewrite <- (exp_ln eps) at 1 by exact Heps.
    apply exp_increasing.
    assert (Hd : (k - kb) / L < ln eps - ln (Sb / (1 - Sb))).
    { apply (Rmult_lt_reg_r L); [exact HL|].
      unfold Rdiv. rewrite Rmult_assoc, Rinv_l by lra. lra. }
    lra.
  - intros eps Heps.
    exists (kb + L * (- ln eps - ln (Sb / (1 - Sb)))). intros k Hk.
    rewrite Hs.
    pose proof (logistic_lt_1 (ln (Sb / (1 - Sb)) + (k - kb) / L)) as Hp.
    rewrite Rabs_left by lra.
    replace (- (logistic (ln (Sb / (1 - Sb)) + (k - kb) / L) - 1))
      with (1 - logistic (ln (Sb / (1 - Sb)) + (k - kb) / L)) by lra.
    rewrite logistic_compl.
    eapply Rlt_trans; [apply logistic_lt_exp|].
    rewrite <- (exp_ln eps) at 1 by exact Heps.
    apply exp_increasing.
    assert (Hd : - ln eps - ln (Sb / (1 - Sb)) < (k - kb) / L).
    { apply (Rmult_lt_reg_r L); [exact HL|].
      unfold Rdiv at 2. rewrite Rmult_assoc, Rinv_l by lra. lra. }
    lra.
Qed.

(** The contract at [Sb = 1/2], [L = 1], [kb = 0]. *)
Lemma fit_sigmoid_contract_witness :
  fit_sigmoid (Fin (1 / 2)) (Fin 1) (Fin 0) (Fin 0) = Fin (1 / 2).
Proof.
  exact (proj1 (proj2 (fit_sigmoid_contract (1 / 2) 1 0
                         ltac:(lra) ltac:(lra)))).
Defined.

(** Outside the interval (0,1) the logit of the anchor is [nan] and so is
    every value of the curve: here [Sb = 2], [L = 1], [kb = 0], [k = 0]. *)
Lemma fit_sigmoid_nan_outside :
  fit_sigmoid (Fin 2) (Fin 1) (Fin 0) (Fin 0) = NaN
  /\ is_finite (fit_sigmoid (Fin 2) (Fin 1) (Fin 0) (Fin 0)) = false.
Proof.
  assert (H : fit_sigmoid (Fin 2) (Fin 1) (Fin 0) (Fin 0) = NaN).
  { unfold fit_sigmoid. cbn [xsub xneg xadd].
    rewrite (xdiv_fin 2) by lra.
    replace (2 / (1 + - (2))) with (- (2)) by field.
    rewrite xlog_neg by lra. reflexivity. }
  rewrite H. split; reflexivity.
Qed.

(** C7, as the code has it.  [fit_sigmoid] does not clamp its anchor: the
    logit is taken as it is.  For a finite [L > 0] and finite [kb] and [k]:
    at [Sb = 0] the curve is constantly 0, at [Sb = 1] constantly 1, and for
    [Sb < 0] or [Sb > 1] every value is [nan]. *)
Theorem fit_sigmoid_boundary (Sb L kb k : R) :
  0 < L ->
  let S := fit_sigmoid (Fin Sb) (Fin L) (Fin kb) in
  (Sb = 0 -> S (Fin k) = Fin 0)
  /\ (Sb = 1 -> S (Fin k) = Fin 1)
  /\ (Sb < 0 \/ 1 < Sb -> S (Fin k) = NaN).
Proof.
  intros HL S. unfold S, fit_sigmoid. cbn [xsub xneg xadd].
  rewrite (xdiv_fin 1 L) by lra. cbn [xmul].
  repeat split.
  - intros ->. rewrite (xdiv_fin 0) by lra.
    rewrite xlog_zero by lra. reflexivity.
  - intros ->. rewrite (xdiv_fin_zero 1 (1 + - (1))) by lra.
    cbn [xlog xadd xneg xexp].
    rewrite xdiv_fin by lra. f_equal. lra.
  - intros Hout.
    rewrite (xdiv_fin Sb) by lra.
    rewrite xlog_neg; [reflexivity|].
    destruct Hout as [Hlt | Hgt].
    + apply Ropp_lt_cancel. rewrite Ropp_0.
      replace (- (Sb / (1 + - Sb))) with ((- Sb) / (1 + - Sb)) by (field; lra).
      apply Rdiv_lt_0_compat; lra.
    + apply Ropp_lt_cancel. rewrite Ropp_0.
      replace (- (Sb / (1 + - Sb))) with (Sb / (Sb - 1)) by (field; lra).
      apply Rdiv_lt_0_compat; lra.
Qed.

(** The three cases at [Sb = 0], [Sb = 1] and [Sb = 2]. *)
Lemma fit_sigmoid_boundary_witness :
  fit_sigmoid (Fin 0) (Fin 1) (Fin 0) (Fin 3) = Fin 0
  /\ fit_sigmoid (Fin 1) (Fin 1) (Fin 0) (Fin 3) = Fin 1
  /\ fit_sigmoid (Fin 2) (Fin 1) (Fin 0) (Fin 3) = NaN.
Proof.
  split; [|split].
  - apply (proj1 (fit_sigmoid_boundary 0 1 0 3 ltac:(lra))). reflexivity.
  - apply (proj1 (proj2 (fit_sigmoid_boundary 1 1 0 3 ltac:(lra)))). reflexivity.
  - apply (proj2 (proj2 (fit_sigmoid_boundary 2 1 0 3 ltac:(lra)))). lra.
Defined.

(* ================================================================== *)
(** * More on the fitted sigmoid *)
(* ================================================================== *)

Section SigmoidMore.

(** [fit_sigmoid_fin] for a correlation length of either sign. *)
Lemma fit_sigmoid_real (Sb L kb k : R) :
  L <> 0 -> 0 < Sb < 1 ->
  fit_sigmoid (Fin Sb) (Fin L) (Fin kb) (Fin k)
  = Fin (logistic (ln (Sb / (1 - Sb)) + (k - kb) / L)).
Proof.
  intros HL [H0 H1]. unfold fit_sigmoid. cbn [xsub xneg xadd].
  rewrite (xdiv_fin Sb) by lra.
  assert (Hq : 0 < Sb / (1 + - Sb)) by (apply Rdiv_lt_0_compat; lra).
  rewrite xlog_fin by exact Hq.
  rewrite (xdiv_fin 1 L) by exact HL.
  cbn [xmul xadd xneg xexp].
  pose proof (exp_pos (- (ln (Sb / (1 + - Sb)) + 1 / L * (k + - kb)))) as He.
  rewrite xdiv_fin by lra.
  unfold logistic. do 4 f_equal.
  replace (1 + - Sb) with (1 - Sb) by lra.
  f_equal. f_equal. now field.
Qed.

Lemma logistic_decr_arg (L a b : R) : L < 0 -> a < b -> b / L < a / L.
Proof.
  intros HL Hab. unfold Rdiv.
  pose proof (Rinv_lt_0_compat L HL) as Hi. nra.
Qed.

(** X1.  For an anchor strictly between 0 and 1 and a finite correlation
    length other than 0, every value of the fitted curve at a finite [k] is a
    number strictly between 0 and 1; for [L < 0] the curve is strictly
    decreasing. *)
Theorem fit_sigmoid_range (Sb L kb : R) :
  L <> 0 -> 0 < Sb < 1 ->
  let S := fit_sigmoid (Fin Sb) (Fin L) (Fin kb) in
  (forall k, exists s, S (Fin k) = Fin s /\ 0 < s < 1)
  /\ (L < 0 -> forall k1 k2, k1 < k2 ->
        exists s1 s2, S (Fin k1) = Fin s1 /\ S (Fin k2) = Fin s2 /\ s2 < s1).
Proof.
  intros HL HSb S. split.
  - intros k. eexists. split; [apply fit_sigmoid_real; assumption|].
    split; [apply logistic_pos | apply logistic_lt_1].
  - intros HLn k1 k2 Hk. eexists. eexists.
    split; [apply fit_sigmoid_real; assumption|].
    split; [apply fit_sigmoid_real; assumption|].
    apply logistic_incr. apply Rplus_lt_compat_l.
    apply logistic_decr_arg; [exact HLn | lra].
Qed.

(** The curve for [Sb = 1/4] and [L = -2] at 0 and at 1. *)
Lemma fit_sigmoid_range_witness :
  exists s1 s2,
    fit_sigmoid (Fin (1 / 4)) (Fin (- 2)) (Fin 0) (Fin 0) = Fin s1
    /\ fit_sigmoid (Fin (1 / 4)) (Fin (- 2)) (Fin 0) (Fin 1) = Fin s2
    /\ s2 < s1.
Proof.
  exact (proj2 (fit_sigmoid_range (1 / 4) (- 2) 0 ltac:(lra) ltac:(lra))
           ltac:(lra) 0 1 ltac:(lra)).
Defined.

Lemma derivable_pt_lim_logistic (x : R) :
  derivable_pt_lim logistic x (logistic x * (1 - logistic x)).
Proof.
  pose proof (exp_pos (- x)) as He.
  assert (Hd : derivable_pt_lim (fct_cte 1 + comp exp (- id))%F x
                 (0 + exp (- x) * - 1)).
  { apply derivable_pt_lim_plus; [apply derivable_pt_lim_const|].
    apply (derivable_pt_lim_comp (- id)%F exp x (- 1) (exp (- x))).
    - apply derivable_pt_lim_opp, derivable_pt_lim_id.
    - apply derivable_pt_lim_exp. }
  assert (Hnz : (fct_cte 1 + comp exp (- id))%F x <> 0).
  { unfold plus_fct, fct_cte, comp, opp_fct, id. lra. }
  pose proof (derivable_pt_lim_div (fct_cte 1) (fct_cte 1 + comp exp (- id))%F
                x 0 (0 + exp (- x) * - 1)
                (derivable_pt_lim_const 1 x) Hd Hnz) as Hq.
  apply (derivable_pt_lim_ext (fct_cte 1 / (fct_cte 1 + comp exp (- id)))%F).
  - intros z. reflexivity.
  - replace (logistic x * (1 - logistic x))
      with ((0 * (fct_cte 1 + comp exp (- id))%F x
             - (0 + exp (- x) * - 1) * fct_cte 1 x)
            / Rsqr ((fct_cte 1 + comp exp (- id))%F x)); [exact Hq|].
    unfold plus_fct, fct_cte, comp, opp_fct, id, logistic, Rsqr.
    field. lra.
Qed.

(** X3.  The fitted curve solves the growth equation of the docstring,
    [dS/dk = a*S*(1 - S)] with [a = 1/L] (the limit value being 1): for a
    valid anchor and a finite [L <> 0] the curve is a real function [s] with
    derivative [(1/L) * s(k) * (1 - s(k))] at every [k]. *)
Theorem fit_sigmoid_growth_equation (Sb L kb : R) :
  L <> 0 -> 0 < Sb < 1 ->
  exists s : R -> R,
    (forall k, fit_sigmoid (Fin Sb) (Fin L) (Fin kb) (Fin k) = Fin (s k))
    /\ (forall k, derivable_pt_lim s k (1 / L * s k * (1 - s k))).
Proof.
  intros HL HSb.
  exists (comp logistic (fct_cte (ln (Sb / (1 - Sb)) - kb / L)
                         + mult_real_fct (/ L) id)%F).
  assert (Harg : forall k, (fct_cte (ln (Sb / (1 - Sb)) - kb / L)
                            + mult_real_fct (/ L) id)%F k
                           = ln (Sb / (1 - Sb)) + (k - kb) / L).
  { intros k. unfold plus_fct, fct_cte, mult_real_fct, id. now field. }
  split.
  - intros k. rewrite fit_sigmoid_real by assumption.
    unfold comp. now rewrite Harg.
  - intros k.
    replace (1 / L * comp logistic (fct_cte (ln (Sb / (1 - Sb)) - kb / L)
                         + mult_real_fct (/ L) id)%F k
             * (1 - comp logistic (fct_cte (ln (Sb / (1 - Sb)) - kb / L)
                         + mult_real_fct (/ L) id)%F k))
      with (logistic (ln (Sb / (1 - Sb)) + (k - kb) / L)
            * (1 - logistic (ln (Sb / (1 - Sb)) + (k - kb) / L))
            * (0 + / L * 1)).
    + apply derivable_pt_lim_comp.
      * apply derivable_pt_lim_plus; [apply derivable_pt_lim_const|].
        apply derivable_pt_lim_scal, derivable_pt_lim_id.
      * rewrite Harg. apply derivable_pt_lim_logistic.
    + unfold comp. rewrite Harg. now field.
Qed.

Lemma fit_sigmoid_growth_equation_witness :
  exists s : R -> R,
    (forall k, fit_sigmoid (Fin (1 / 4)) (Fin 2) (Fin 0) (Fin k) = Fin (s k))
    /\ (forall k, derivable_pt_lim s k (1 / 2 * s k * (1 - s k))).
Proof.
  exact (fit_sigmoid_growth_equation (1 / 4) 2 0 ltac:(lra) ltac:(lra)).
Defined.

(** X4.  The curve anchored at [1 - Sb] is the mirror image, through the
    point [(kb, 1/2)], of the curve anchored at [Sb]; it is the symmetry of
    the normalized sigmoid of the docstring. *)
Theorem fit_sigmoid_mirror (Sb L kb d : R) :
  L <> 0 -> 0 < Sb < 1 ->
  exists s,
    fit_sigmoid (Fin Sb) (Fin L) (Fin kb) (Fin (kb + d)) = Fin s
    /\ fit_sigmoid (Fin (1 - Sb)) (Fin L) (Fin kb) (Fin (kb - d)) = Fin (1 - s).
Proof.
  intros HL [H0 H1]. eexists. split; [apply fit_sigmoid_real; [assumption|lra]|].
  rewrite fit_sigmoid_real; [|assumption|lra].
  rewrite logistic_compl. do 2 f_equal.
  replace (1 - (1 - Sb)) with Sb by lra.
  assert (Hl : ln ((1 - Sb) / Sb) = - ln (Sb / (1 - Sb))).
  { rewrite <- ln_Rinv by (apply Rdiv_lt_0_compat; lra).
    f_equal. field. lra. }
  rewrite Hl. field. exact HL.
Qed.

Lemma fit_sigmoid_mirror_witness :
  exists s,
    fit_sigmoid (Fin (1 / 4)) (Fin 2) (Fin 0) (Fin (0 + 3)) = Fin s
    /\ fit_sigmoid (Fin (1 - 1 / 4)) (Fin 2) (Fin 0) (Fin (0 - 3)) = Fin (1 - s).
Proof.
  exact (fit_sigmoid_mirror (1 / 4) 2 0 3 ltac:(lra) ltac:(lra)).
Defined.

End SigmoidMore.

Section SigmoidDegenerate.

(** An anchor that is no number of [0,1] has no logit, and the curve is
    [nan] whatever the other arguments are. *)
Lemma fit_sigmoid_anchor_out (Sb L kb k : xreal) :
  anchor_out Sb -> fit_sigmoid Sb L kb k = NaN.
Proof.
  intros Hout. unfold fit_sigmoid.
  assert (Hb : xlog (xdiv Sb (xsub (Fin 1) Sb)) = NaN).
  { destruct Sb as [r| | |]; cbn [xsub xneg xadd]; try reflexivity.
    cbn [anchor_out] in Hout. rewrite xdiv_fin by lra.
    apply xlog_neg. destruct Hout as [Hlt | Hgt].
    - apply Ropp_lt_cancel. rewrite Ropp_0.
      replace (- (r / (1 + - r))) with ((- r) / (1 + - r)) by (field; lra).
      apply Rdiv_lt_0_compat; lra.
    - apply Ropp_lt_cancel. rewrite Ropp_0.
      replace (- (r / (1 + - r))) with (r / (r - 1)) by (field; lra).
      apply Rdiv_lt_0_compat; lra. }
  rewrite Hb. reflexivity.
Qed.

(** The value at the anchor does not depend on where the anchor is. *)
Lemma fit_sigmoid_at_anchor (Sb L : xreal) (kb : R) :
  fit_sigmoid Sb L (Fin kb) (Fin kb) = fit_sigmoid Sb L (Fin 0) (Fin 0).
Proof.
  unfold fit_sigmoid. cbn [xsub xneg xadd].
  replace (kb + - kb) with 0 by lra. replace (0 + - 0) with 0 by lra.
  reflexivity.
Qed.

(** X5.  Degenerate correlation lengths, for an anchor strictly between 0 and
    1 and finite [kb] and [k].  With an infinite [L] the rate [1/L] is 0 and
    the curve is flat, [S(k) = Sb].  With [L = 0] the rate is [inf] and the
    curve is a step: 0 before [kb], 1 after it, and [nan] at [kb] itself
    ([inf * 0]).  With [L = nan] every value is [nan]. *)
Theorem fit_sigmoid_degenerate_length (Sb kb k : R) :
  0 < Sb < 1 ->
  (forall L, L = PInf \/ L = NInf ->
     fit_sigmoid (Fin Sb) L (Fin kb) (Fin k) = Fin Sb)
  /\ (k < kb -> fit_sigmoid (Fin Sb) (Fin 0) (Fin kb) (Fin k) = Fin 0)
  /\ (kb < k -> fit_sigmoid (Fin Sb) (Fin 0) (Fin kb) (Fin k) = Fin 1)
  /\ fit_sigmoid (Fin Sb) (Fin 0) (Fin kb) (Fin kb) = NaN
  /\ fit_sigmoid (Fin Sb) NaN (Fin kb) (Fin k) = NaN.
Proof.
  intros [H0 H1].
  assert (Hq : 0 < Sb / (1 + - Sb)) by (apply Rdiv_lt_0_compat; lra).
  assert (Hb : xlog (xdiv (Fin Sb) (xsub (Fin 1) (Fin Sb)))
               = Fin (ln (Sb / (1 + - Sb)))).
  { cbn [xsub xneg xadd]. rewrite xdiv_fin by lra. now apply xlog_fin. }
  assert (Ha0 : xdiv (Fin 1) (Fin 0) = PInf) by (apply xdiv_fin_zero; lra).
  repeat split.
  - intros L HL.
    assert (Ha : xdiv (Fin 1) L = Fin 0) by (destruct HL as [-> | ->]; reflexivity).
    unfold fit_sigmoid. rewrite Hb, Ha. cbn [xsub xneg xadd xmul xexp].
    pose proof (exp_pos (- (ln (Sb / (1 + - Sb)) + 0 * (k + - kb)))) as He.
    rewrite xdiv_fin by lra. f_equal.
    replace (ln (Sb / (1 + - Sb)) + 0 * (k + - kb))
      with (ln (Sb / (1 - Sb))) by (replace (1 + - Sb) with (1 - Sb) by lra; lra).
    apply (logistic_logit Sb). now split.
  - intros Hk. unfold fit_sigmoid. rewrite Hb, Ha0.
    cbn [xsub xneg xadd xmul]. rewrite Rsign_neg by lra. reflexivity.
  - intros Hk. unfold fit_sigmoid. rewrite Hb, Ha0.
    cbn [xsub xneg xadd xmul]. rewrite Rsign_pos by lra.
    cbn [inf_of_sign xadd xneg xexp]. rewrite xdiv_fin by lra. f_equal. lra.
  - unfold fit_sigmoid. rewrite Hb, Ha0.
    cbn [xsub xneg xadd xmul]. rewrite Rsign_zero by lra. reflexivity.
  - unfold fit_sigmoid. rewrite Hb. reflexivity.
Qed.

Lemma fit_sigmoid_degenerate_length_witness :
  fit_sigmoid (Fin (1 / 4)) PInf (Fin 2) (Fin 5) = Fin (1 / 4)
  /\ fit_sigmoid (Fin (1 / 4)) (Fin 0) (Fin 2) (Fin 2) = NaN.
Proof.
  pose proof (fit_sigmoid_degenerate_length (1 / 4) 2 5 ltac:(lra)) as H.
  split.
  - exact (proj1 H PInf (or_introl eq_refl)).
  - exact (proj1 (proj2 (proj2 (proj2 H)))).
Defined.

End SigmoidDegenerate.

(* ================================================================== *)
(** * The loop over the ticks *)
(* ================================================================== *)

Section LoopLemmas.

Context {LA : LinAlg}.

Lemma for_ticks_app {L : Type} (body : Stats -> L -> Tick -> Stats * outcome L)
    (pre post : list Tick) (stats : Stats) (l : L) :
  for_ticks body (pre ++ post) stats l =
  match for_ticks body pre stats l with
  | (stats', Done l') => for_ticks body post stats' l'
  | (stats', Raised e) => (stats', Raised e)
  end.
Proof.
  revert stats l. induction pre as [|tk pre IH]; intros stats l; simpl.
  - reflexivity.
  - destruct (body stats l tk) as [stats' [l' | e]]; [apply IH | reflexivity].
Qed.

(** An invariant of the body is an invariant of the loop; [J] is what holds
    of the statistics when an exception ends the loop. *)
Lemma for_ticks_inv {L : Type} (body : Stats -> L -> Tick -> Stats * outcome L)
    (I : Stats -> L -> Prop) (J : Stats -> exn -> Prop) (ticks : list Tick) :
  (forall stats l tk, In tk ticks -> I stats l ->
     match body stats l tk with
     | (stats', Done l') => I stats' l'
     | (stats', Raised e) => J stats' e
     end) ->
  forall stats l, I stats l ->
    match for_ticks body ticks stats l with
    | (stats', Done l') => I stats' l'
    | (stats', Raised e) => J stats' e
    end.
Proof.
  induction ticks as [|tk ticks IH]; intros Hbody stats l HI; simpl.
  - exact HI.
  - pose proof (Hbody stats l tk (or_introl eq_refl) HI) as Hstep.
    destruct (body stats l tk) as [stats' [l' | e]].
    + apply IH; [|exact Hstep].
      intros s0 l0 tk0 Hin. apply Hbody. now right.
    + exact Hstep.
Qed.

(** Two loops over the same ticks, step by step in a relation [Rl]; when one
    raises so does the other, with the same exception, and [Re] holds. *)
Lemma for_ticks_rel {L1 L2 : Type}
    (body1 : Stats -> L1 -> Tick -> Stats * outcome L1)
    (body2 : Stats -> L2 -> Tick -> Stats * outcome L2)
    (Rl : Stats -> L1 -> Stats -> L2 -> Prop) (Re : Stats -> Stats -> Prop)
    (ticks : list Tick) :
  (forall s1 l1 s2 l2 tk, Rl s1 l1 s2 l2 ->
     match body1 s1 l1 tk, body2 s2 l2 tk with
     | (s1', Done l1'), (s2', Done l2') => Rl s1' l1' s2' l2'
     | (s1', Raised e1), (s2', Raised e2) => e1 = e2 /\ Re s1' s2'
     | _, _ => False
     end) ->
  forall s1 l1 s2 l2, Rl s1 l1 s2 l2 ->
    match for_ticks body1 ticks s1 l1, for_ticks body2 ticks s2 l2 with
    | (s1', Done l1'), (s2', Done l2') => Rl s1' l1' s2' l2'
    | (s1', Raised e1), (s2', Raised e2) => e1 = e2 /\ Re s1' s2'
    | _, _ => False
    end.
Proof.
  intros Hbody. induction ticks as [|tk ticks IH]; intros s1 l1 s2 l2 HR; simpl.
  - exact HR.
  - pose proof (Hbody s1 l1 s2 l2 tk HR) as Hstep.
    destruct (body1 s1 l1 tk) as [s1' [l1' | e1]];
      destruct (body2 s2 l2 tk) as [s2' [l2' | e2]]; try contradiction.
    + now apply IH.
    + exact Hstep.
Qed.

Lemma assessments_assess (stats : Stats) k kObs faus mu Cov :
  assessments (assess stats k kObs faus mu Cov)
  = assessments stats ++ [mkAssess k kObs faus mu Cov].
Proof. reflexivity. Qed.

Lemma trHK_assess (stats : Stats) k kObs faus mu Cov :
  trHK (assess stats k kObs faus mu Cov) = trHK stats.
Proof. reflexivity. Qed.

Lemma stats_sans_cov_assess (s1 s2 : Stats) k kObs faus mu C1 C2 :
  stats_sans_cov s1 = stats_sans_cov s2 ->
  stats_sans_cov (assess s1 k kObs faus mu C1)
  = stats_sans_cov (assess s2 k kObs faus mu C2).
Proof.
  unfold stats_sans_cov. intros H. injection H as Ha Ht.
  cbn [assess assessments trHK]. rewrite !map_app, Ha, Ht. reflexivity.
Qed.

End LoopLemmas.

(* ================================================================== *)
(** * [Climatology] *)
(* ================================================================== *)

Section ClimatologyFacts.

Context {LA : LinAlg}.

Lemma Climatology_loop (muC : Vec) (PC : CovMat) (ticks : list Tick)
    (stats : Stats) :
  for_ticks (Climatology_tick muC PC) ticks stats tt
  = (mkStats (assessments stats ++ map (Climatology_entry muC PC) ticks)
             (trHK stats), Done tt).
Proof.
  revert stats. induction ticks as [|tk ticks IH]; intros stats; simpl.
  - rewrite app_nil_r. now destruct stats.
  - rewrite IH. cbn [assess assessments trHK].
    rewrite <- app_assoc. reflexivity.
Qed.

(** C8.  Whatever the trajectory, a [Climatology] run emits one assessment at
    initialization and one at every tick, each with the mean [mean(xx,0)] and
    the one covariance [CovMat(xx - muC,'A')]; it ends normally, and the
    observations [yy] have no influence on what it does. *)
Theorem Climatology_constant_estimate (stats : Stats) (hmm : HMM) (xx : Traj)
    (yy : list Vec) :
  let muC := mean0 xx in
  let PC := CovMat_A (tsubv xx muC) in
  let emitted := mkAssess 0 None None muC (CovObj PC)
                 :: map (Climatology_entry muC PC) (ticker hmm) in
  Climatology_assimilator stats hmm xx yy
  = (mkStats (assessments stats ++ emitted)
             (map (fun _ => Fin 0) (trHK stats)), Done tt)
  /\ List.length emitted = S (List.length (ticker hmm))
  /\ Forall (fun a => a_mu a = muC /\ a_Cov a = CovObj PC) emitted
  /\ (forall yy', Climatology_assimilator stats hmm xx yy'
                  = Climatology_assimilator stats hmm xx yy).
Proof.
  intros muC PC emitted. repeat split.
  - unfold Climatology_assimilator. fold muC PC. rewrite Climatology_loop.
    cbn [trHK_fill_zero assess assessments trHK]. unfold emitted.
    rewrite <- app_assoc. reflexivity.
  - unfold emitted. cbn [List.length]. now rewrite length_map.
  - unfold emitted. constructor; [now split|].
    apply Forall_forall. intros a Ha. apply in_map_iff in Ha.
    destruct Ha as [tk [<- _]]. now split.
Qed.

End ClimatologyFacts.

(* ================================================================== *)
(** * [OptInterp] *)
(* ================================================================== *)

Section OptInterpFacts.

Context {LA : LinAlg}.
Variable ecl : Flat -> xreal.

Lemma OI_frame_refl (l : OI_locals) : OI_frame l l.
Proof. repeat split. Qed.

Lemma OptInterp_tick_frame (hmm : HMM) (yy : list Vec) (stats : Stats)
    (l0 l : OI_locals) (tk : Tick) :
  OI_frame l0 l ->
  match OptInterp_tick hmm yy stats l tk with
  | (_, Done l') => OI_frame l0 l'
  | (_, Raised e) => e = IndexError
  end.
Proof.
  intros HF. unfold OptInterp_tick.
  destruct (tk_kObs tk) as [j|]; [destruct (nth_error yy j) as [y|]|];
    try reflexivity; exact HF.
Qed.

Lemma OptInterp_loop_frame (hmm : HMM) (yy : list Vec) (ticks : list Tick)
    (stats : Stats) (l0 : OI_locals) :
  match for_ticks (OptInterp_tick hmm yy) ticks stats l0 with
  | (_, Done l') => OI_frame l0 l'
  | (_, Raised e) => e = IndexError
  end.
Proof.
  apply (for_ticks_inv (OptInterp_tick hmm yy)
           (fun _ l => OI_frame l0 l) (fun _ e => e = IndexError)).
  - intros s l tk _ HF. now apply OptInterp_tick_frame.
  - apply OI_frame_refl.
Qed.

Lemma for_ticks_single {L : Type}
    (body : Stats -> L -> Tick -> Stats * outcome L) (tk : Tick)
    (stats : Stats) (l : L) :
  for_ticks body [tk] stats l = body stats l tk.
Proof.
  simpl. now destruct (body stats l tk) as [s' [l' | e]].
Qed.

Lemma OptInterp_run_snoc (stats : Stats) (hmm : HMM) (xx : Traj)
    (yy : list Vec) (ticks : list Tick) (tk : Tick) :
  OptInterp_run ecl stats hmm xx yy (ticks ++ [tk]) =
  match OptInterp_run ecl stats hmm xx yy ticks with
  | (stats', Done l') => OptInterp_tick hmm yy stats' l' tk
  | (stats', Raised e) => (stats', Raised e)
  end.
Proof.
  unfold OptInterp_run.
  destruct (OptInterp_setup ecl stats hmm xx) as [s0 [l0 | e]]; [|reflexivity].
  rewrite for_ticks_app.
  destruct (for_ticks (OptInterp_tick hmm yy) ticks s0 l0) as [s1 [l1 | e]];
    [apply for_ticks_single | reflexivity].
Qed.

(** What a run that has not raised holds in its constant locals. *)
Lemma OptInterp_run_Done (stats : Stats) (hmm : HMM) (xx : Traj)
    (yy : list Vec) (ticks : list Tick) (stats' : Stats) (l : OI_locals) :
  OptInterp_run ecl stats hmm xx yy ticks = (stats', Done l) ->
  let H := Obs_linear hmm None NaN in
  let muC := mean0 xx in
  let AC := tsubv xx muC in
  let PC := mdivs (tmatmul AC AC) (Fin (IZR (shape0 xx - 1))) in
  let KG := mrdiv (matmul PC (transpose H))
                  (madd (matmul (matmul H PC) (transpose H))
                        (full (Obs_noise_C hmm))) in
  let P := matmul (msub (eye (Dyn_M hmm)) (matmul KG H)) PC in
  all_isfinite H = true
  /\ oi_H l = H /\ oi_muC l = muC /\ oi_PC l = PC /\ oi_KG l = KG
  /\ oi_P l = P /\ oi_L l = ecl (ravelF AC).
Proof.
  intros Hrun H muC AC PC KG P. unfold OptInterp_run, OptInterp_setup in Hrun.
  fold H muC AC PC KG P in Hrun.
  destruct (all_isfinite H) eqn:Hfin; cbn [negb] in Hrun; [|discriminate].
  match type of Hrun with
  | for_ticks _ _ ?s ?l0 = _ =>
      pose proof (OptInterp_loop_frame hmm yy ticks s l0) as HF
  end.
  rewrite Hrun in HF. destruct HF as (HH & Hmu & _ & HPC & HKG & HP & HL).
  cbn [oi_H oi_muC oi_PC oi_KG oi_P oi_L] in *.
  repeat split; assumption.
Qed.

(** The statistics only grow, by assessments; [trHK] is left alone. *)
Lemma OptInterp_tick_log (hmm : HMM) (yy : list Vec) (stats : Stats)
    (l : OI_locals) (tk : Tick) :
  exists new,
    assessments (fst (OptInterp_tick hmm yy stats l tk))
    = assessments stats ++ new
    /\ trHK (fst (OptInterp_tick hmm yy stats l tk)) = trHK stats.
Proof.
  unfold OptInterp_tick.
  destruct (tk_kObs tk) as [j|]; [destruct (nth_error yy j) as [y|]|];
    cbn [fst assess assessments trHK]; eexists; split;
    try reflexivity; rewrite <- ?app_assoc; reflexivity.
Qed.

Lemma OptInterp_loop_log (hmm : HMM) (yy : list Vec) (ticks : list Tick)
    (stats : Stats) (l : OI_locals) :
  exists new,
    assessments (fst (for_ticks (OptInterp_tick hmm yy) ticks stats l))
    = assessments stats ++ new
    /\ trHK (fst (for_ticks (OptInterp_tick hmm yy) ticks stats l)) = trHK stats.
Proof.
  revert stats l. induction ticks as [|tk ticks IH]; intros stats l; simpl.
  - exists []. now rewrite app_nil_r.
  - destruct (OptInterp_tick_log hmm yy stats l tk) as [new1 [Ha Ht]].
    destruct (OptInterp_tick hmm yy stats l tk) as [s1 [l1 | e]];
      cbn [fst] in Ha, Ht.
    + destruct (IH s1 l1) as [new2 [Ha2 Ht2]].
      exists (new1 ++ new2). rewrite Ha2, Ht2, Ha, Ht, app_assoc. now split.
    + exists new1. now split.
Qed.

(** With every observation in range the loop does not raise. *)
Lemma OptInterp_loop_total (hmm : HMM) (yy : list Vec) (ticks : list Tick)
    (stats : Stats) (l : OI_locals) :
  obs_in_range ticks yy ->
  exists l', snd (for_ticks (OptInterp_tick hmm yy) ticks stats l) = Done l'.
Proof.
  revert stats l. induction ticks as [|tk ticks IH]; intros stats l Hr; simpl.
  - now exists l.
  - assert (Hr' : obs_in_range ticks yy).
    { intros tk0 j Hin. apply Hr. now right. }
    unfold OptInterp_tick at 1.
    destruct (tk_kObs tk) as [j|] eqn:Hk.
    + destruct (nth_error yy j) as [y|] eqn:Hy.
      * now apply IH.
      * exfalso. apply nth_error_None in Hy.
        pose proof (Hr tk j (or_introl eq_refl) Hk). apply (Nat.lt_irrefl j).
        eapply Nat.lt_le_trans; eassumption.
    + now apply IH.
Qed.

Lemma OptInterp_run_total (stats : Stats) (hmm : HMM) (xx : Traj)
    (yy : list Vec) (ticks : list Tick) :
  all_isfinite (Obs_linear hmm None NaN) = true ->
  obs_in_range ticks yy ->
  exists stats' l, OptInterp_run ecl stats hmm xx yy ticks = (stats', Done l).
Proof.
  intros Hfin Hr. unfold OptInterp_run, OptInterp_setup. rewrite Hfin.
  cbn [negb].
  match goal with
  | |- context [for_ticks ?b ticks ?s0 ?l0] =>
      destruct (OptInterp_loop_total hmm yy ticks s0 l0 Hr) as [l' Hl'];
      destruct (for_ticks b ticks s0 l0) as [s1 o1]
  end.
  cbn [snd] in Hl'. subst o1. now exists s1, l'.
Qed.

(** C5.  [OptInterp] raises [AssimFailedError] exactly when [H], the operator
    linearized at the placeholder [nan], has an entry that is not finite, and
    then the statistics are as they were: nothing was assessed.  When every
    entry is finite the initial assessment is emitted and the run goes on; it
    ends normally when every observation index is in range. *)
Theorem OptInterp_fails_fast (stats : Stats) (hmm : HMM) (xx : Traj)
    (yy : list Vec) :
  let H := Obs_linear hmm None NaN in
  let muC := mean0 xx in
  let PC := mdivs (tmatmul (tsubv xx muC) (tsubv xx muC))
                  (Fin (IZR (shape0 xx - 1))) in
  let r := OptInterp_assimilator ecl stats hmm xx yy in
  ((exists msg, snd r = Raised (AssimFailedError msg))
     <-> all_isfinite H = false)
  /\ (all_isfinite H = false ->
        r = (stats, Raised (AssimFailedError OptInterp_msg)))
  /\ (all_isfinite H = true ->
        (exists rest,
           assessments (fst r)
           = assessments stats ++ mkAssess 0 None None muC (CovArr PC) :: rest)
        /\ trHK (fst r) = trHK stats
        /\ (obs_in_range (ticker hmm) yy -> exists l, snd r = Done l)).
Proof.
  intros H muC PC r.
  assert (Hbad : all_isfinite H = false ->
                 r = (stats, Raised (AssimFailedError OptInterp_msg))).
  { intros Hf. unfold r, OptInterp_assimilator, OptInterp_run, OptInterp_setup.
    fold H. now rewrite Hf. }
  assert (Hgood : all_isfinite H = true ->
            exists s0 l0,
              r = for_ticks (OptInterp_tick hmm yy) (ticker hmm) s0 l0
              /\ s0 = assess stats 0 None None muC (CovArr PC)).
  { intros Hf. unfold r, OptInterp_assimilator, OptInterp_run, OptInterp_setup.
    fold H muC. rewrite Hf. cbn [negb]. eexists. eexists. split; reflexivity. }
  split; [split|split].
  - intros [msg Hmsg]. destruct (all_isfinite H) eqn:Hf; [|reflexivity].
    destruct (Hgood eq_refl) as (s0 & l0 & Hr & _).
    pose proof (OptInterp_loop_frame hmm yy (ticker hmm) s0 l0) as HF.
    rewrite <- Hr in HF. destruct r as [s1 [l1 | e]]; cbn [snd] in Hmsg.
    + discriminate.
    + subst e. discriminate.
  - intros Hf. exists OptInterp_msg. now rewrite (Hbad Hf).
  - exact Hbad.
  - intros Hf. destruct (Hgood Hf) as (s0 & l0 & Hr & Hs0).
    destruct (OptInterp_loop_log hmm yy (ticker hmm) s0 l0) as [new [Ha Ht]].
    rewrite <- Hr in Ha, Ht. repeat split.
    + exists new. rewrite Ha, Hs0. cbn [assess assessments].
      now rewrite <- app_assoc.
    + rewrite Ht, Hs0. reflexivity.
    + intros Hrange. rewrite Hr. now apply OptInterp_loop_total.
Qed.

(** C3.  In a run of [OptInterp] the gain is the one computed at setup,
    [KG = mrdiv(PC @ H.T, H @ PC @ H.T + R)], from the climatological
    covariance, the operator linearized once, and the noise covariance: it is
    the value of [KG] after any number of ticks, and the analysis at the
    next observation tick uses it.  Where the innovation covariance
    [H @ PC @ H.T + R] has an inverse, [KG] is [PC @ H.T] times that
    inverse. *)
Theorem OptInterp_gain_computed_once (stats : Stats) (hmm : HMM) (xx : Traj)
    (yy : list Vec) (ticks : list Tick) (stats' : Stats) (l : OI_locals) :
  OptInterp_run ecl stats hmm xx yy ticks = (stats', Done l) ->
  let H := Obs_linear hmm None NaN in
  let muC := mean0 xx in
  let PC := mdivs (tmatmul (tsubv xx muC) (tsubv xx muC))
                  (Fin (IZR (shape0 xx - 1))) in
  let HPHR := madd (matmul (matmul H PC) (transpose H))
                   (full (Obs_noise_C hmm)) in
  let KG := mrdiv (matmul PC (transpose H)) HPHR in
  oi_KG l = KG
  /\ (forall tk j y, tk_kObs tk = Some j -> nth_error yy j = Some y ->
        exists stats'' l',
          OptInterp_run ecl stats hmm xx yy (ticks ++ [tk]) = (stats'', Done l')
          /\ oi_mu l' = vadd muC (matvec KG (vsub y (Obs hmm muC (tk_t tk))))
          /\ oi_KG l' = KG)
  /\ (forall (LL : LinAlgLaws LA) (m p : nat) (Si : Mat),
        is_mat m p (matmul PC (transpose H)) ->
        is_mat p p HPHR -> is_mat p p Si ->
        matmul HPHR Si = eye p -> matmul Si HPHR = eye p ->
        KG = matmul (matmul PC (transpose H)) Si).
Proof.
  intros Hrun H muC PC HPHR KG.
  destruct (OptInterp_run_Done _ _ _ _ _ _ _ Hrun)
    as (_ & HH & Hmu & HPC & HKG & _ & _).
  fold muC in Hmu. fold H in HH. fold muC PC in HPC. fold muC H PC HPHR KG in HKG.
  split; [exact HKG | split].
  - intros tk j y Hk Hy. rewrite OptInterp_run_snoc, Hrun.
    unfold OptInterp_tick. rewrite Hk, Hy.
    eexists. eexists. split; [reflexivity|].
    cbn [oi_mu oi_KG]. rewrite Hmu, HKG. now split.
  - intros LL m p Si Hb HA HAi H1 H2. unfold KG.
    now apply (mrdiv_inverse m p).
Qed.

(** C4.  At an observation tick of [OptInterp] the mean after the analysis is
    [muC + KG @ (y - Obs(muC,t))], with the climatological mean in both
    places: the tick emits the forecast assessment with [muC] and then the
    analysis assessment with that mean, and the result of the tick is the
    same whatever the mean was before it, so the forecast [Dyn(mu,..)] is
    not used.  For an operator with [Obs(x,t) = H @ x] the mean is
    [muC + KG @ (y - H @ muC)]. *)
Theorem OptInterp_analysis_from_climatology (stats : Stats) (hmm : HMM)
    (xx : Traj) (yy : list Vec) (ticks : list Tick) (tk : Tick) (j : nat)
    (y : Vec) (stats' : Stats) (l : OI_locals) :
  OptInterp_run ecl stats hmm xx yy ticks = (stats', Done l) ->
  tk_kObs tk = Some j -> nth_error yy j = Some y ->
  let H := Obs_linear hmm None NaN in
  let muC := mean0 xx in
  let PC := mdivs (tmatmul (tsubv xx muC) (tsubv xx muC))
                  (Fin (IZR (shape0 xx - 1))) in
  let KG := mrdiv (matmul PC (transpose H))
                  (madd (matmul (matmul H PC) (transpose H))
                        (full (Obs_noise_C hmm))) in
  let mu_a := vadd muC (matvec KG (vsub y (Obs hmm muC (tk_t tk)))) in
  (exists stats'' l' C,
     OptInterp_run ecl stats hmm xx yy (ticks ++ [tk]) = (stats'', Done l')
     /\ oi_mu l' = mu_a
     /\ assessments stats''
        = assessments stats'
          ++ [mkAssess (tk_k tk) (Some j) (Some "f"%string) muC (CovArr PC);
              mkAssess (tk_k tk) (Some j) None mu_a C])
  /\ (forall mu0, OptInterp_tick hmm yy stats' (OI_with_mu l mu0) tk
                  = OptInterp_tick hmm yy stats' l tk)
  /\ ((forall x t, Obs hmm x t = matvec H x) ->
      mu_a = vadd muC (matvec KG (vsub y (matvec H muC)))).
Proof.
  intros Hrun Hk Hy H muC PC KG mu_a.
  destruct (OptInterp_run_Done _ _ _ _ _ _ _ Hrun)
    as (_ & HH & Hmu & HPC & HKG & _ & _).
  fold muC in Hmu. fold H in HH. fold muC PC in HPC. fold muC H PC KG in HKG.
  split; [|split].
  - rewrite OptInterp_run_snoc, Hrun.
    unfold OptInterp_tick. rewrite Hk, Hy.
    eexists. eexists. eexists. split; [reflexivity|].
    cbn [oi_mu assess assessments]. rewrite Hmu, HKG, HPC.
    split; [reflexivity|]. rewrite <- app_assoc. reflexivity.
  - intros mu0. unfold OptInterp_tick, OI_with_mu. rewrite Hk, Hy.
    reflexivity.
  - intros Hlin. unfold mu_a. now rewrite Hlin.
Qed.

(** What an observation tick of [OptInterp] anchors the sigmoid at: the
    ratio [trace(P)/trace(PC)], not [trace(P)/trace(2*PC)] as at setup. *)
Lemma OptInterp_refit_anchor (stats : Stats) (hmm : HMM) (xx : Traj)
    (yy : list Vec) (ticks : list Tick) (tk : Tick) (j : nat) (y : Vec)
    (stats' : Stats) (l : OI_locals) :
  OptInterp_run ecl stats hmm xx yy ticks = (stats', Done l) ->
  tk_kObs tk = Some j -> nth_error yy j = Some y ->
  let H := Obs_linear hmm None NaN in
  let muC := mean0 xx in
  let AC := tsubv xx muC in
  let PC := mdivs (tmatmul AC AC) (Fin (IZR (shape0 xx - 1))) in
  let KG := mrdiv (matmul PC (transpose H))
                  (madd (matmul (matmul H PC) (transpose H))
                        (full (Obs_noise_C hmm))) in
  let P := matmul (msub (eye (Dyn_M hmm)) (matmul KG H)) PC in
  exists stats'' l',
    OptInterp_run ecl stats hmm xx yy (ticks ++ [tk]) = (stats'', Done l')
    /\ oi_SM l' = fit_sigmoid (xdiv (trace P) (trace PC)) (ecl (ravelF AC))
                              (Fin (IZR (tk_k tk)))
    /\ assessments stats''
       = assessments stats'
         ++ [mkAssess (tk_k tk) (Some j) (Some "f"%string) muC (CovArr PC);
             mkAssess (tk_k tk) (Some j) None (oi_mu l')
               (CovArr (mscale (oi_SM l' (Fin (IZR (tk_k tk))))
                               (mscale (Fin 2) PC)))].
Proof.
  intros Hrun Hk Hy H muC AC PC KG P.
  destruct (OptInterp_run_Done _ _ _ _ _ _ _ Hrun)
    as (_ & _ & Hmu & HPC & _ & HP & HL).
  rewrite OptInterp_run_snoc, Hrun.
  unfold OptInterp_tick. rewrite Hk, Hy.
  eexists. eexists. split; [reflexivity|].
  cbn [oi_SM oi_mu assess assessments]. rewrite HPC, HP, HL, Hmu.
  split; [reflexivity|]. now rewrite <- app_assoc.
Qed.

End OptInterpFacts.

Section OptInterpSigmoid.

Context {LA : LinAlg}.
Variables ecl1 ecl2 : Flat -> xreal.

Lemma OptInterp_tick_agree (hmm : HMM) (yy : list Vec) (s1 s2 : Stats)
    (l1 l2 : OI_locals) (tk : Tick) :
  stats_sans_cov s1 = stats_sans_cov s2 /\ OI_agree l1 l2 ->
  match OptInterp_tick hmm yy s1 l1 tk, OptInterp_tick hmm yy s2 l2 tk with
  | (s1', Done l1'), (s2', Done l2') =>
      stats_sans_cov s1' = stats_sans_cov s2' /\ OI_agree l1' l2'
  | (s1', Raised e1), (s2', Raised e2) =>
      e1 = e2 /\ stats_sans_cov s1' = stats_sans_cov s2'
  | _, _ => False
  end.
Proof.
  intros [Hs (HH & HmuC & HAC & HPC & HKG & HP & Hmu)].
  unfold OptInterp_tick.
  destruct (tk_kObs tk) as [j|]; [destruct (nth_error yy j) as [y|]|].
  - rewrite HmuC, HKG. split.
    + apply stats_sans_cov_assess. now apply stats_sans_cov_assess.
    + repeat split; assumption.
  - split; [reflexivity|]. rewrite HmuC. now apply stats_sans_cov_assess.
  - rewrite Hmu. split.
    + now apply stats_sans_cov_assess.
    + repeat split; assumption.
Qed.

Lemma OptInterp_run_agree (stats : Stats) (hmm : HMM) (xx : Traj)
    (yy : list Vec) (ticks : list Tick) :
  match OptInterp_run ecl1 stats hmm xx yy ticks,
        OptInterp_run ecl2 stats hmm xx yy ticks with
  | (s1, Done l1), (s2, Done l2) =>
      stats_sans_cov s1 = stats_sans_cov s2 /\ OI_agree l1 l2
  | (s1, Raised e1), (s2, Raised e2) =>
      e1 = e2 /\ stats_sans_cov s1 = stats_sans_cov s2
  | _, _ => False
  end.
Proof.
  unfold OptInterp_run, OptInterp_setup.
  destruct (all_isfinite (Obs_linear hmm None NaN)); cbn [negb].
  - apply (for_ticks_rel (OptInterp_tick hmm yy) (OptInterp_tick hmm yy)
             (fun s1 l1 s2 l2 => stats_sans_cov s1 = stats_sans_cov s2
                                 /\ OI_agree l1 l2)
             (fun s1 s2 => stats_sans_cov s1 = stats_sans_cov s2)).
    + intros s1 l1 s2 l2 tk HR. now apply OptInterp_tick_agree.
    + split; [reflexivity | repeat split].
  - now split.
Qed.

End OptInterpSigmoid.

(* ================================================================== *)
(** * [Var3D] *)
(* ================================================================== *)

Section Var3DFacts.

Context {LA : LinAlg}.
Variable ecl : Flat -> xreal.
Variable air : Mat -> bool.

Lemma Var3D_tick_inv (hmm : HMM) (yy : list Vec) (B CC : Mat) (L : xreal)
    (stats : Stats) (l : V3_locals) (tk : Tick) :
  V3_inv hmm B CC L l ->
  match Var3D_tick hmm yy stats l tk with
  | (_, Done l') => V3_inv hmm B CC L l'
  | (_, Raised e) => e = IndexError
  end.
Proof.
  intros (HB & HCC & HL & HKG). unfold Var3D_tick.
  destruct (tk_kObs tk) as [j|]; [destruct (nth_error yy j) as [y|]|].
  - repeat split; try assumption. cbn [v3_KG v3_H].
    eexists. eexists. split; [reflexivity|]. rewrite HB. reflexivity.
  - reflexivity.
  - repeat split; assumption.
Qed.

Lemma Var3D_loop_inv (hmm : HMM) (yy : list Vec) (B CC : Mat) (L : xreal)
    (ticks : list Tick) (stats : Stats) (l : V3_locals) :
  V3_inv hmm B CC L l ->
  match for_ticks (Var3D_tick hmm yy) ticks stats l with
  | (_, Done l') => V3_inv hmm B CC L l'
  | (_, Raised e) => e = IndexError
  end.
Proof.
  apply (for_ticks_inv (Var3D_tick hmm yy)
           (fun _ l' => V3_inv hmm B CC L l') (fun _ e => e = IndexError)).
  intros s0 l0 tk _. apply Var3D_tick_inv.
Qed.

(** A call whose test on [B] raises leaves everything as it was. *)
Lemma Var3D_run_raised (c : Var3D_closure) (stats : Stats) (hmm : HMM)
    (xx : Traj) (yy : list Vec) (ticks : list Tick) (e : exn) :
  Var3D_resolve_B air c xx = Raised e ->
  Var3D_run ecl air c stats hmm xx yy ticks = (c, (stats, Raised e)).
Proof. intros HB. unfold Var3D_run. now rewrite HB. Qed.

(** A call that gets past the test runs the loop from the state of setup,
    with the array in the closure. *)
Lemma Var3D_run_resolved (c : Var3D_closure) (stats : Stats) (hmm : HMM)
    (xx : Traj) (yy : list Vec) (ticks : list Tick) (B : Mat) :
  Var3D_resolve_B air c xx = Done B ->
  Var3D_run ecl air c stats hmm xx yy ticks
  = (mkVar3D (B_arr B) (cl_xB c),
     for_ticks (Var3D_tick hmm yy) ticks
       (fst (Var3D_setup ecl B stats hmm xx))
       (snd (Var3D_setup ecl B stats hmm xx))).
Proof. intros HB. unfold Var3D_run. now rewrite HB. Qed.

Lemma Var3D_run_snoc (c : Var3D_closure) (stats : Stats) (hmm : HMM)
    (xx : Traj) (yy : list Vec) (ticks : list Tick) (tk : Tick) :
  Var3D_run ecl air c stats hmm xx yy (ticks ++ [tk]) =
  match Var3D_run ecl air c stats hmm xx yy ticks with
  | (c', (stats', Done l')) => (c', Var3D_tick hmm yy stats' l' tk)
  | (c', (stats', Raised e)) => (c', (stats', Raised e))
  end.
Proof.
  destruct (Var3D_resolve_B air c xx) as [B | e] eqn:HB.
  - rewrite !(Var3D_run_resolved _ _ _ _ _ _ B HB), for_ticks_app.
    match goal with
    | |- context [for_ticks ?b ticks ?s ?l0] =>
        destruct (for_ticks b ticks s l0) as [s1 [l1 | e]]
    end; [rewrite for_ticks_single|]; reflexivity.
  - now rewrite !(Var3D_run_raised _ _ _ _ _ _ e HB).
Qed.

(** What a call that has not raised holds: the array resolved at its start is
    in the closure and in [B], and the loop has kept its invariant. *)
Lemma Var3D_run_Done (c c' : Var3D_closure) (stats : Stats) (hmm : HMM)
    (xx : Traj) (yy : list Vec) (ticks : list Tick) (stats' : Stats)
    (l : V3_locals) :
  Var3D_run ecl air c stats hmm xx yy ticks = (c', (stats', Done l)) ->
  exists B,
    Var3D_resolve_B air c xx = Done B
    /\ c' = mkVar3D (B_arr B) (cl_xB c)
    /\ V3_inv hmm B (mscale (Fin 2) (cov xx))
              (ecl (ravelF (fst (center xx)))) l.
Proof.
  intros Hrun. destruct (Var3D_resolve_B air c xx) as [B | e] eqn:HB.
  - rewrite (Var3D_run_resolved _ _ _ _ _ _ B HB) in Hrun.
    injection Hrun as Hc Hloop. exists B. split; [reflexivity|].
    split; [now symmetry|].
    match type of Hloop with
    | for_ticks _ _ ?s0 ?l0 = _ =>
        pose proof (Var3D_loop_inv hmm yy B (mscale (Fin 2) (cov xx))
                      (ecl (ravelF (fst (center xx)))) ticks s0 l0) as Hinv
    end.
    rewrite Hloop in Hinv. apply Hinv. repeat split.
  - rewrite (Var3D_run_raised _ _ _ _ _ _ e HB) in Hrun. discriminate Hrun.
Qed.

(** The exceptions of a call: [ValueError] from the test on [B], before
    anything is done, or [IndexError] from [yy[kObs]]. *)
Lemma Var3D_run_Raised (c c' : Var3D_closure) (stats : Stats) (hmm : HMM)
    (xx : Traj) (yy : list Vec) (ticks : list Tick) (stats' : Stats)
    (e : exn) :
  Var3D_run ecl air c stats hmm xx yy ticks = (c', (stats', Raised e)) ->
  (Var3D_resolve_B air c xx = Raised ValueError
   /\ e = ValueError /\ c' = c /\ stats' = stats)
  \/ ((exists B, Var3D_resolve_B air c xx = Done B) /\ e = IndexError).
Proof.
  intros Hrun. destruct (Var3D_resolve_B air c xx) as [B | e0] eqn:HB.
  - right. split; [now exists B|].
    rewrite (Var3D_run_resolved _ _ _ _ _ _ B HB) in Hrun.
    injection Hrun as _ Hloop.
    match type of Hloop with
    | for_ticks _ _ ?s0 ?l0 = _ =>
        pose proof (Var3D_loop_inv hmm yy B (mscale (Fin 2) (cov xx))
                      (ecl (ravelF (fst (center xx)))) ticks s0 l0) as Hinv
    end.
    rewrite Hloop in Hinv. apply Hinv. repeat split.
  - left. rewrite (Var3D_run_raised _ _ _ _ _ _ e0 HB) in Hrun.
    injection Hrun as <- <- <-.
    unfold Var3D_resolve_B in HB.
    destruct (cl_B c) as [| |m]; try discriminate HB.
    destruct (air m); [|discriminate HB].
    injection HB as <-. now repeat split.
Qed.

(** With every observation in range the loop of [Var3D] does not raise. *)
Lemma Var3D_loop_total (hmm : HMM) (yy : list Vec) (ticks : list Tick)
    (stats : Stats) (l : V3_locals) :
  obs_in_range ticks yy ->
  exists l', snd (for_ticks (Var3D_tick hmm yy) ticks stats l) = Done l'.
Proof.
  revert stats l. induction ticks as [|tk ticks IH]; intros stats l Hr; simpl.
  - now exists l.
  - assert (Hr' : obs_in_range ticks yy).
    { intros tk0 j Hin. apply Hr. now right. }
    unfold Var3D_tick at 1.
    destruct (tk_kObs tk) as [j|] eqn:Hk.
    + destruct (nth_error yy j) as [y|] eqn:Hy.
      * now apply IH.
      * exfalso. apply nth_error_None in Hy.
        pose proof (Hr tk j (or_introl eq_refl) Hk). apply (Nat.lt_irrefl j).
        eapply Nat.lt_le_trans; eassumption.
    + now apply IH.
Qed.

Lemma Var3D_run_total (c : Var3D_closure) (stats : Stats) (hmm : HMM)
    (xx : Traj) (yy : list Vec) (ticks : list Tick) (B : Mat) :
  Var3D_resolve_B air c xx = Done B ->
  obs_in_range ticks yy ->
  exists stats' l,
    Var3D_run ecl air c stats hmm xx yy ticks
    = (mkVar3D (B_arr B) (cl_xB c), (stats', Done l)).
Proof.
  intros HB Hr. rewrite (Var3D_run_resolved _ _ _ _ _ _ B HB).
  match goal with
  | |- context [for_ticks ?b ticks ?s0 ?l0] =>
      destruct (Var3D_loop_total hmm yy ticks s0 l0 Hr) as [l' Hl'];
      destruct (for_ticks b ticks s0 l0) as [s1 o1]
  end.
  cbn [snd] in Hl'. subst o1. now exists s1, l'.
Qed.

(** Before the first tick: the state of setup. *)
Lemma Var3D_run_nil (c : Var3D_closure) (stats : Stats) (hmm : HMM)
    (xx : Traj) (yy : list Vec) (B : Mat) :
  Var3D_resolve_B air c xx = Done B ->
  exists stats' l,
    Var3D_run ecl air c stats hmm xx yy []
    = (mkVar3D (B_arr B) (cl_xB c), (stats', Done l))
    /\ v3_mu l = X0_mu hmm
    /\ assessments stats'
       = assessments stats
         ++ [mkAssess 0 None None (X0_mu hmm) (CovArr (full (X0_C hmm)))].
Proof.
  intros HB. rewrite (Var3D_run_resolved _ _ _ _ _ _ B HB).
  eexists. eexists. split; [reflexivity|]. now split.
Qed.

(** A tick that is not an observation time only forecasts. *)
Lemma Var3D_forecast_tick (c c' : Var3D_closure) (stats : Stats) (hmm : HMM)
    (xx : Traj) (yy : list Vec) (ticks : list Tick) (tk : Tick)
    (stats' : Stats) (l : V3_locals) :
  Var3D_run ecl air c stats hmm xx yy ticks = (c', (stats', Done l)) ->
  tk_kObs tk = None ->
  exists stats'' l',
    Var3D_run ecl air c stats hmm xx yy (ticks ++ [tk])
    = (c', (stats'', Done l'))
    /\ v3_mu l' = Dyn hmm (v3_mu l) (xsub (tk_t tk) (tk_dt tk)) (tk_dt tk)
    /\ exists C, assessments stats''
                 = assessments stats' ++ [mkAssess (tk_k tk) None None (v3_mu l') C].
Proof.
  intros Hrun Hk. rewrite Var3D_run_snoc, Hrun. unfold Var3D_tick. rewrite Hk.
  eexists. eexists. split; [reflexivity|]. cbn [v3_mu].
  split; [reflexivity|]. eexists. reflexivity.
Qed.

(** What an observation tick of [Var3D] does: the gain is computed from [B]
    and the operator linearized at the forecast, the analysis covariance is
    recomputed as [(I - KG @ H) @ B], and the sigmoid is fitted again,
    anchored at [trace(P)/trace(2*cov)] at [k]. *)
Lemma Var3D_refit_anchor (c c' : Var3D_closure) (stats : Stats) (hmm : HMM)
    (xx : Traj) (yy : list Vec) (ticks : list Tick) (tk : Tick) (j : nat)
    (y : Vec) (stats' : Stats) (l : V3_locals) :
  Var3D_run ecl air c stats hmm xx yy ticks = (c', (stats', Done l)) ->
  tk_kObs tk = Some j -> nth_error yy j = Some y ->
  let B := v3_B l in
  let mu_f := Dyn hmm (v3_mu l) (xsub (tk_t tk) (tk_dt tk)) (tk_dt tk) in
  let H := Obs_linear hmm (Some mu_f) (tk_t tk) in
  let KG := Var3D_gain hmm B H in
  let Pa := matmul (msub (eye (Dyn_M hmm)) (matmul KG H)) B in
  exists stats'' l',
    Var3D_run ecl air c stats hmm xx yy (ticks ++ [tk])
    = (c', (stats'', Done l'))
    /\ v3_B l' = B
    /\ v3_KG l' = Some KG
    /\ v3_mu l' = vadd mu_f (matvec KG (vsub y (Obs hmm mu_f (tk_t tk))))
    /\ v3_P l' = Pa
    /\ v3_SM l' = fit_sigmoid (xdiv (trace Pa) (trace (mscale (Fin 2) (cov xx))))
                              (ecl (ravelF (fst (center xx))))
                              (Fin (IZR (tk_k tk)))
    /\ assessments stats''
       = assessments stats'
         ++ [mkAssess (tk_k tk) (Some j) (Some "f"%string) mu_f
               (CovArr (mscale (v3_SM l (Fin (IZR (tk_k tk))))
                               (mscale (Fin 2) (cov xx))));
             mkAssess (tk_k tk) (Some j) None (v3_mu l') (CovArr Pa)].
Proof.
  intros Hrun Hk Hy B mu_f H KG Pa.
  destruct (Var3D_run_Done _ _ _ _ _ _ _ _ _ Hrun)
    as (B' & _ & _ & _ & HCC & HL & _).
  rewrite Var3D_run_snoc, Hrun. unfold Var3D_tick. rewrite Hk, Hy.
  fold B mu_f H. rewrite HCC, HL. fold (Var3D_gain hmm B H). fold KG Pa.
  eexists. eexists. split; [reflexivity|].
  cbn [v3_B v3_KG v3_mu v3_P v3_SM assess assessments].
  repeat split. now rewrite <- app_assoc.
Qed.

(** C10, as the code has it.  A call of the assimilator that gets past the
    test [B in (None,'clim')] assigns the [B] of the closure: [B] becomes
    [xB] times the array it held, or times [np.cov(xx.T)] of that call's
    trajectory when it was [None] or ['clim'], and the array stays in the
    closure, however the call ends.  What a second call of the same
    configured method does depends on that test for the stored array.
    Where the test raises, the second call raises [ValueError] before
    anything is done: the closure keeps the once-scaled array and nothing is
    assessed.  Where the test answers [False], the second call multiplies by
    [xB] again, and every gain of that call is the gain for this
    twice-scaled [B]. *)
Theorem Var3D_rescales_B_at_every_call (B0 : Bval) (xB : xreal)
    (stats1 stats2 : Stats) (hmm1 hmm2 : HMM) (xx1 xx2 : Traj)
    (yy1 yy2 : list Vec) (B1 : Mat) :
  Var3D_resolve_B air (Var3D B0 xB) xx1 = Done B1 ->
  let B2 := mscale xB B1 in
  let c1 := fst (Var3D_assimilator ecl air (Var3D B0 xB) stats1 hmm1 xx1 yy1) in
  let r2 := Var3D_assimilator ecl air c1 stats2 hmm2 xx2 yy2 in
  B1 = mscale xB match B0 with
                 | B_None | B_clim => cov xx1
                 | B_arr m => m
                 end
  /\ c1 = mkVar3D (B_arr B1) xB
  /\ if air B1
     then r2 = (mkVar3D (B_arr B1) xB, (stats2, Raised ValueError))
     else
       fst r2 = mkVar3D (B_arr B2) xB
       /\ (forall ticks,
             match snd (snd (Var3D_run ecl air c1 stats2 hmm2 xx2 yy2 ticks)) with
             | Done l =>
                 v3_B l = B2
                 /\ match v3_KG l with
                    | None => True
                    | Some KG =>
                        exists mu t,
                          KG = Var3D_gain hmm2 B2 (Obs_linear hmm2 (Some mu) t)
                    end
             | Raised e => e = IndexError
             end).
Proof.
  intros HB1 B2 c1 r2.
  assert (H1 : c1 = mkVar3D (B_arr B1) xB).
  { unfold c1, Var3D_assimilator.
    now rewrite (Var3D_run_resolved _ _ _ _ _ _ B1 HB1). }
  split; [|split; [exact H1|]].
  - unfold Var3D_resolve_B, Var3D in HB1. cbn [cl_B cl_xB] in HB1.
    destruct B0 as [| |m]; try (now injection HB1 as <-).
    destruct (air m); [discriminate HB1 | now injection HB1 as <-].
  - destruct (air B1) eqn:Hair.
    + unfold r2, Var3D_assimilator. rewrite H1.
      apply Var3D_run_raised. unfold Var3D_resolve_B. cbn [cl_B cl_xB].
      now rewrite Hair.
    + assert (HB2 : Var3D_resolve_B air (mkVar3D (B_arr B1) xB) xx2 = Done B2).
      { unfold Var3D_resolve_B. cbn [cl_B cl_xB]. now rewrite Hair. }
      split.
      * unfold r2, Var3D_assimilator. rewrite H1.
        now rewrite (Var3D_run_resolved _ _ _ _ _ _ B2 HB2).
      * intros ticks. rewrite H1.
        destruct (Var3D_run ecl air (mkVar3D (B_arr B1) xB) stats2 hmm2 xx2 yy2
                    ticks) as [c' [s' [l | e]]] eqn:Hrun; cbn [snd].
        -- destruct (Var3D_run_Done _ _ _ _ _ _ _ _ _ Hrun)
             as (B & HB & _ & HBl & _ & _ & HKG).
           rewrite HB2 in HB. injection HB as <-.
           split; [exact HBl|].
           destruct (v3_KG l) as [KG|]; [|exact I].
           destruct HKG as (mu & t & _ & HKG). now exists mu, t.
        -- destruct (Var3D_run_Raised _ _ _ _ _ _ _ _ _ Hrun)
             as [(HB & _) | (_ & He)]; [|exact He].
           rewrite HB2 in HB. discriminate HB.
Qed.

End Var3DFacts.

Section Var3DSigmoid.

Context {LA : LinAlg}.
Variables ecl1 ecl2 : Flat -> xreal.
Variable air : Mat -> bool.

Lemma Var3D_tick_agree (hmm : HMM) (yy : list Vec) (s1 s2 : Stats)
    (l1 l2 : V3_locals) (tk : Tick) :
  stats_sans_cov s1 = stats_sans_cov s2 /\ V3_agree l1 l2 ->
  match Var3D_tick hmm yy s1 l1 tk, Var3D_tick hmm yy s2 l2 tk with
  | (s1', Done l1'), (s2', Done l2') =>
      stats_sans_cov s1' = stats_sans_cov s2' /\ V3_agree l1' l2'
  | (s1', Raised e1), (s2', Raised e2) =>
      e1 = e2 /\ stats_sans_cov s1' = stats_sans_cov s2'
  | _, _ => False
  end.
Proof.
  intros [Hs (HB & HCC & Hmu & HH & HKG)].
  unfold Var3D_tick. rewrite HB, Hmu.
  destruct (tk_kObs tk) as [j|]; [destruct (nth_error yy j) as [y|]|].
  - split.
    + apply stats_sans_cov_assess. now apply stats_sans_cov_assess.
    + repeat split; assumption.
  - split; [reflexivity|]. now apply stats_sans_cov_assess.
  - split.
    + now apply stats_sans_cov_assess.
    + repeat split; assumption.
Qed.

Lemma Var3D_run_agree (c : Var3D_closure) (stats : Stats) (hmm : HMM)
    (xx : Traj) (yy : list Vec) (ticks : list Tick) :
  match snd (Var3D_run ecl1 air c stats hmm xx yy ticks),
        snd (Var3D_run ecl2 air c stats hmm xx yy ticks) with
  | (s1, Done l1), (s2, Done l2) =>
      stats_sans_cov s1 = stats_sans_cov s2 /\ V3_agree l1 l2
  | (s1, Raised e1), (s2, Raised e2) =>
      e1 = e2 /\ stats_sans_cov s1 = stats_sans_cov s2
  | _, _ => False
  end.
Proof.
  destruct (Var3D_resolve_B air c xx) as [B | e] eqn:HB.
  - rewrite !(Var3D_run_resolved _ _ _ _ _ _ _ _ B HB). cbn [snd].
    apply (for_ticks_rel (Var3D_tick hmm yy) (Var3D_tick hmm yy)
             (fun s1 l1 s2 l2 => stats_sans_cov s1 = stats_sans_cov s2
                                 /\ V3_agree l1 l2)
             (fun s1 s2 => stats_sans_cov s1 = stats_sans_cov s2)).
    + intros s1 l1 s2 l2 tk HR. now apply Var3D_tick_agree.
    + split; [reflexivity | repeat split].
  - rewrite !(Var3D_run_raised _ _ _ _ _ _ _ _ e HB). cbn [snd]. now split.
Qed.

Lemma Var3D_run_closure_agree (c : Var3D_closure) (stats : Stats) (hmm : HMM)
    (xx : Traj) (yy : list Vec) (ticks : list Tick) :
  fst (Var3D_run ecl1 air c stats hmm xx yy ticks)
  = fst (Var3D_run ecl2 air c stats hmm xx yy ticks).
Proof.
  destruct (Var3D_resolve_B air c xx) as [B | e] eqn:HB.
  - now rewrite !(Var3D_run_resolved _ _ _ _ _ _ _ _ B HB).
  - now rewrite !(Var3D_run_raised _ _ _ _ _ _ _ _ e HB).
Qed.

(** C1.  Take two runs of [OptInterp], or of [Var3D], that differ only in the
    correlation length [L] that [estimate_corr_length] returns, hence in the
    sigmoid [SM].  After any number of ticks they have raised the same
    exception or hold the same gain [KG] and the same mean [mu] (and [Var3D]
    has left the same [B] in its closure), and they have emitted the same
    assessments but for the covariances: [SM] only enters the [Cov] handed to
    [stats.assess]. *)
Theorem sigmoid_is_diagnostic_only (c : Var3D_closure) (stats : Stats)
    (hmm : HMM) (xx : Traj) (yy : list Vec) (ticks : list Tick) :
  (let r1 := OptInterp_run ecl1 stats hmm xx yy ticks in
   let r2 := OptInterp_run ecl2 stats hmm xx yy ticks in
   stats_sans_cov (fst r1) = stats_sans_cov (fst r2)
   /\ match snd r1, snd r2 with
      | Done l1, Done l2 => oi_KG l1 = oi_KG l2 /\ oi_mu l1 = oi_mu l2
      | Raised e1, Raised e2 => e1 = e2
      | _, _ => False
      end)
  /\ (let r1 := Var3D_run ecl1 air c stats hmm xx yy ticks in
      let r2 := Var3D_run ecl2 air c stats hmm xx yy ticks in
      fst r1 = fst r2
      /\ stats_sans_cov (fst (snd r1)) = stats_sans_cov (fst (snd r2))
      /\ match snd (snd r1), snd (snd r2) with
         | Done l1, Done l2 =>
             v3_B l1 = v3_B l2 /\ v3_KG l1 = v3_KG l2 /\ v3_mu l1 = v3_mu l2
         | Raised e1, Raised e2 => e1 = e2
         | _, _ => False
         end).
Proof.
  split.
  - pose proof (OptInterp_run_agree ecl1 ecl2 stats hmm xx yy ticks) as HR.
    cbv zeta.
    destruct (OptInterp_run ecl1 stats hmm xx yy ticks) as [s1 [l1 | e1]];
      destruct (OptInterp_run ecl2 stats hmm xx yy ticks) as [s2 [l2 | e2]];
      try contradiction; cbn [fst snd].
    + destruct HR as [Hs (_ & _ & _ & _ & HKG & _ & Hmu)]. now repeat split.
    + destruct HR as [He Hs]. now split.
  - pose proof (Var3D_run_agree c stats hmm xx yy ticks) as HR.
    cbv zeta. split; [apply Var3D_run_closure_agree|].
    destruct (snd (Var3D_run ecl1 air c stats hmm xx yy ticks))
      as [s1 [l1 | e1]];
      destruct (snd (Var3D_run ecl2 air c stats hmm xx yy ticks))
        as [s2 [l2 | e2]];
      try contradiction; cbn [fst snd].
    + destruct HR as [Hs (HB & _ & Hmu & _ & HKG)]. now repeat split.
    + destruct HR as [He Hs]. now split.
Qed.

End Var3DSigmoid.

(* ================================================================== *)
(** * The perfect-observation limit of [Var3D] *)
(* ================================================================== *)

Section PerfectObservation.

Context {LA : LinAlg} {LL : LinAlgLaws LA}.
Variable ecl : Flat -> xreal.
Variable air : Mat -> bool.
Variable hmm : HMM.
Variable xx : Traj.
Variable yy : list Vec.

Let M := Dyn_M hmm.

(** The observation operator is the identity, without noise. *)
Hypothesis Obs_id : forall x t, Obs hmm x t = x.
Hypothesis Obs_linear_id : forall x t, Obs_linear hmm x t = eye M.
Hypothesis noise_zero : full (Obs_noise_C hmm) = zeros M M.

(** The climatological covariance is a finite array with an inverse. *)
Variable Bi : Mat.
Hypothesis cov_mat : is_mat M M (cov xx).
Hypothesis Bi_mat : is_mat M M Bi.
Hypothesis cov_Bi : matmul (cov xx) Bi = eye M.
Hypothesis Bi_cov : matmul Bi (cov xx) = eye M.

(** States and observations are finite vectors. *)
Hypothesis X0_vec : is_vec M (X0_mu hmm).
Hypothesis Dyn_vec : forall x t dt, is_vec M x -> is_vec M (Dyn hmm x t dt).
Hypothesis yy_vec : Forall (is_vec M) yy.

Lemma perfect_gain : Var3D_gain hmm (cov xx) (eye M) = eye M.
Proof.
  unfold Var3D_gain. rewrite transpose_eye, noise_zero.
  rewrite (matmul_eye_l M M (cov xx) cov_mat).
  rewrite (matmul_eye_r M M (cov xx) cov_mat).
  rewrite (madd_zeros_r M M (cov xx) cov_mat).
  rewrite (mrdiv_inverse M M (cov xx) (cov xx) Bi) by assumption.
  exact cov_Bi.
Qed.

Lemma perfect_analysis (mu_f y : Vec) (t : xreal) :
  is_vec M mu_f -> is_vec M y ->
  vadd mu_f (matvec (Var3D_gain hmm (cov xx) (Obs_linear hmm (Some mu_f) t))
                    (vsub y (Obs hmm mu_f t))) = y.
Proof.
  intros Hmu Hy. rewrite Obs_linear_id, Obs_id, perfect_gain.
  rewrite (matvec_eye M) by now apply is_vec_vsub.
  now apply (vadd_vsub M).
Qed.

Lemma perfect_resolve_B (B0 : Bval) :
  B_is_clim air xx B0 ->
  Var3D_resolve_B air (Var3D B0 (Fin 1)) xx = Done (cov xx).
Proof.
  unfold Var3D_resolve_B, Var3D. cbn [cl_B cl_xB].
  intros [-> | [-> | [-> Hair]]]; rewrite ?Hair; now rewrite mscale_one.
Qed.

Lemma perfect_tick_inv (stats : Stats) (l : V3_locals) (tk : Tick) :
  v3_B l = cov xx /\ is_vec M (v3_mu l) ->
  match Var3D_tick hmm yy stats l tk with
  | (_, Done l') => v3_B l' = cov xx /\ is_vec M (v3_mu l')
  | (_, Raised _) => True
  end.
Proof.
  intros [HB Hmu]. unfold Var3D_tick.
  destruct (tk_kObs tk) as [j|]; [destruct (nth_error yy j) as [y|] eqn:Hy|].
  - cbn [v3_mu v3_B]. split; [exact HB|]. rewrite HB.
    assert (Hyv : is_vec M y).
    { exact (proj1 (Forall_forall (is_vec M) yy) yy_vec y (nth_error_In yy j Hy)). }
    match goal with
    | |- is_vec M (vadd ?m (matvec _ (vsub _ (Obs hmm _ ?t)))) =>
        pose proof (perfect_analysis m y t (Dyn_vec _ _ _ Hmu) Hyv) as Hpa
    end.
    unfold Var3D_gain in Hpa. rewrite Hpa. exact Hyv.
  - exact I.
  - cbn [v3_mu v3_B]. split; [exact HB | now apply Dyn_vec].
Qed.

Lemma perfect_run_inv (B0 : Bval) (stats : Stats) (ticks : list Tick) :
  B_is_clim air xx B0 ->
  match snd (Var3D_run ecl air (Var3D B0 (Fin 1)) stats hmm xx yy ticks) with
  | (_, Done l) => v3_B l = cov xx /\ is_vec M (v3_mu l)
  | (_, Raised _) => True
  end.
Proof.
  intros HB0.
  rewrite (Var3D_run_resolved _ _ _ _ _ _ _ _ (cov xx) (perfect_resolve_B B0 HB0)).
  cbn [snd].
  apply (for_ticks_inv (Var3D_tick hmm yy)
           (fun _ l => v3_B l = cov xx /\ is_vec M (v3_mu l))
           (fun _ _ => True)).
  - intros s0 l0 tk _. apply perfect_tick_inv.
  - split; [reflexivity | exact X0_vec].
Qed.

(** C9, with the condition it needs.  Let [Var3D] be configured with the
    climatological covariance for [B] and [xB = 1.0], the observation
    operator be the identity without noise, and the climatological
    covariance be finite and have an inverse.  Then at every observation
    tick the mean after the analysis is the observation [yy[kObs]], and it
    is what the tick hands to [stats.assess]. *)
Theorem Var3D_perfect_observation (B0 : Bval) (stats : Stats)
    (ticks : list Tick) (tk : Tick) (j : nat) (y : Vec)
    (c' : Var3D_closure) (stats' : Stats) (l : V3_locals) :
  B_is_clim air xx B0 ->
  Var3D_run ecl air (Var3D B0 (Fin 1)) stats hmm xx yy ticks
  = (c', (stats', Done l)) ->
  tk_kObs tk = Some j -> nth_error yy j = Some y ->
  exists stats'' l' mu_f Cf Ca,
    Var3D_run ecl air (Var3D B0 (Fin 1)) stats hmm xx yy (ticks ++ [tk])
    = (c', (stats'', Done l'))
    /\ v3_mu l' = y
    /\ assessments stats''
       = assessments stats'
         ++ [mkAssess (tk_k tk) (Some j) (Some "f"%string) mu_f Cf;
             mkAssess (tk_k tk) (Some j) None y Ca].
Proof.
  intros HB0 Hrun Hk Hy.
  pose proof (perfect_run_inv B0 stats ticks HB0) as Hinv.
  rewrite Hrun in Hinv. cbn [snd] in Hinv. destruct Hinv as [HB Hmu].
  destruct (Var3D_refit_anchor ecl air _ _ _ _ _ _ _ _ _ _ _ _ Hrun Hk Hy)
    as (stats'' & l' & Hrun' & _ & _ & Hmu' & _ & _ & Hlog).
  rewrite HB in Hmu'.
  assert (Hyv : is_vec M y).
  { exact (proj1 (Forall_forall (is_vec M) yy) yy_vec y (nth_error_In yy j Hy)). }
  rewrite perfect_analysis in Hmu'; [|now apply Dyn_vec | exact Hyv].
  rewrite Hmu' in Hlog.
  exists stats'', l'. eexists. eexists. eexists.
  split; [exact Hrun' | split; [exact Hmu' | exact Hlog]].
Qed.

End PerfectObservation.

(* ================================================================== *)
(** * More on the runs of [OptInterp] and [Var3D] *)
(* ================================================================== *)

Section RunsMore.

Context {LA : LinAlg}.
Variable ecl : Flat -> xreal.
Variable air : Mat -> bool.

Lemma OptInterp_run_app (stats : Stats) (hmm : HMM) (xx : Traj)
    (yy : list Vec) (pre post : list Tick) :
  OptInterp_run ecl stats hmm xx yy (pre ++ post) =
  match OptInterp_run ecl stats hmm xx yy pre with
  | (stats', Done l') => for_ticks (OptInterp_tick hmm yy) post stats' l'
  | (stats', Raised e) => (stats', Raised e)
  end.
Proof.
  unfold OptInterp_run.
  destruct (OptInterp_setup ecl stats hmm xx) as [s0 [l0 | e]]; [|reflexivity].
  apply for_ticks_app.
Qed.

Lemma Var3D_run_app (c : Var3D_closure) (stats : Stats) (hmm : HMM)
    (xx : Traj) (yy : list Vec) (pre post : list Tick) :
  Var3D_run ecl air c stats hmm xx yy (pre ++ post) =
  match Var3D_run ecl air c stats hmm xx yy pre with
  | (c', (stats', Done l')) =>
      (c', for_ticks (Var3D_tick hmm yy) post stats' l')
  | (c', (stats', Raised e)) => (c', (stats', Raised e))
  end.
Proof.
  destruct (Var3D_resolve_B air c xx) as [B | e] eqn:HB.
  - rewrite !(Var3D_run_resolved _ _ _ _ _ _ _ _ B HB), for_ticks_app.
    match goal with
    | |- context [for_ticks ?b pre ?s ?l0] =>
        now destruct (for_ticks b pre s l0) as [s1 [l1 | e]]
    end.
  - now rewrite !(Var3D_run_raised _ _ _ _ _ _ _ _ e HB).
Qed.

(** ** The order of the assessments *)

Lemma OptInterp_loop_heads (hmm : HMM) (yy : list Vec) (ticks : list Tick)
    (stats stats' : Stats) (l l' : OI_locals) :
  for_ticks (OptInterp_tick hmm yy) ticks stats l = (stats', Done l') ->
  map assessment_head (assessments stats')
  = map assessment_head (assessments stats) ++ flat_map tick_heads ticks.
Proof.
  revert stats l. induction ticks as [|tk ticks IH]; intros stats l Hrun;
    cbn [for_ticks flat_map] in *.
  - injection Hrun as <- _. now rewrite app_nil_r.
  - unfold OptInterp_tick at 1 in Hrun. unfold tick_heads at 1.
    destruct (tk_kObs tk) as [j|].
    + destruct (nth_error yy j) as [y|]; [|discriminate Hrun].
      rewrite (IH _ _ Hrun). cbn [assess assessments].
      rewrite !map_app, <- !app_assoc. reflexivity.
    + rewrite (IH _ _ Hrun). cbn [assess assessments].
      rewrite !map_app, <- !app_assoc. reflexivity.
Qed.

Lemma Var3D_loop_heads (hmm : HMM) (yy : list Vec) (ticks : list Tick)
    (stats stats' : Stats) (l l' : V3_locals) :
  for_ticks (Var3D_tick hmm yy) ticks stats l = (stats', Done l') ->
  map assessment_head (assessments stats')
  = map assessment_head (assessments stats) ++ flat_map tick_heads ticks.
Proof.
  revert stats l. induction ticks as [|tk ticks IH]; intros stats l Hrun;
    cbn [for_ticks flat_map] in *.
  - injection Hrun as <- _. now rewrite app_nil_r.
  - unfold Var3D_tick at 1 in Hrun. unfold tick_heads at 1.
    destruct (tk_kObs tk) as [j|].
    + destruct (nth_error yy j) as [y|]; [|discriminate Hrun].
      rewrite (IH _ _ Hrun). cbn [assess assessments].
      rewrite !map_app, <- !app_assoc. reflexivity.
    + rewrite (IH _ _ Hrun). cbn [assess assessments].
      rewrite !map_app, <- !app_assoc. reflexivity.
Qed.

(** X6.  A run of [OptInterp] whose operator passes the check and whose
    observation indices are all in range ends normally, and it has called
    [stats.assess] in this order: once for step 0, then for every tick in
    turn once (no tag) when it is no observation time, and twice when it is
    one: first with the tag ['f'], then without a tag. *)
Theorem OptInterp_assessment_order (stats : Stats) (hmm : HMM) (xx : Traj)
    (yy : list Vec) (ticks : list Tick) :
  all_isfinite (Obs_linear hmm None NaN) = true ->
  obs_in_range ticks yy ->
  exists stats' l,
    OptInterp_run ecl stats hmm xx yy ticks = (stats', Done l)
    /\ map assessment_head (assessments stats')
       = map assessment_head (assessments stats)
         ++ (0%Z, None, None) :: flat_map tick_heads ticks.
Proof.
  intros Hfin Hr.
  destruct (OptInterp_run_total ecl stats hmm xx yy ticks Hfin Hr)
    as (stats' & l & Hrun).
  exists stats', l. split; [exact Hrun|].
  unfold OptInterp_run, OptInterp_setup in Hrun. rewrite Hfin in Hrun.
  cbn [negb] in Hrun. rewrite (OptInterp_loop_heads _ _ _ _ _ _ _ Hrun).
  cbn [assess assessments]. rewrite map_app, <- app_assoc. reflexivity.
Qed.

(** X7.  A call of [Var3D] that gets past the test on [B] and whose
    observation indices are all in range ends normally, and it has called
    [stats.assess] in the same order as [OptInterp]: once for step 0, then
    per tick once without a tag, or with ['f'] and then without a tag at an
    observation time. *)
Theorem Var3D_assessment_order (c : Var3D_closure) (stats : Stats)
    (hmm : HMM) (xx : Traj) (yy : list Vec) (ticks : list Tick) (B : Mat) :
  Var3D_resolve_B air c xx = Done B ->
  obs_in_range ticks yy ->
  exists stats' l,
    Var3D_run ecl air c stats hmm xx yy ticks
    = (mkVar3D (B_arr B) (cl_xB c), (stats', Done l))
    /\ map assessment_head (assessments stats')
       = map assessment_head (assessments stats)
         ++ (0%Z, None, None) :: flat_map tick_heads ticks.
Proof.
  intros HB Hr.
  destruct (Var3D_run_total ecl air c stats hmm xx yy ticks B HB Hr)
    as (stats' & l & Hrun).
  exists stats', l. split; [exact Hrun|].
  rewrite (Var3D_run_resolved _ _ _ _ _ _ _ _ B HB) in Hrun.
  injection Hrun as Hrun. rewrite (Var3D_loop_heads _ _ _ _ _ _ _ Hrun).
  cbn [Var3D_setup fst assess assessments].
  rewrite map_app, <- app_assoc. reflexivity.
Qed.

(** ** An observation that is missing *)

(** X8.  When the observation of a tick is missing from [yy] (the index is
    past its end) and the ticks before are served, [OptInterp] raises
    [IndexError] at that tick: it has assessed the ticks before and the
    forecast of this one, with the climatological mean and covariance, and
    it runs none of the ticks after. *)
Theorem OptInterp_missing_observation (stats : Stats) (hmm : HMM) (xx : Traj)
    (yy : list Vec) (pre post : list Tick) (tk : Tick) (j : nat) :
  all_isfinite (Obs_linear hmm None NaN) = true ->
  obs_in_range pre yy ->
  tk_kObs tk = Some j -> nth_error yy j = None ->
  let muC := mean0 xx in
  let PC := mdivs (tmatmul (tsubv xx muC) (tsubv xx muC))
                  (Fin (IZR (shape0 xx - 1))) in
  exists stats_pre l,
    OptInterp_run ecl stats hmm xx yy pre = (stats_pre, Done l)
    /\ OptInterp_run ecl stats hmm xx yy (pre ++ tk :: post)
       = (assess stats_pre (tk_k tk) (Some j) (Some "f"%string) muC (CovArr PC),
          Raised IndexError).
Proof.
  intros Hfin Hr Hk Hy muC PC.
  destruct (OptInterp_run_total ecl stats hmm xx yy pre Hfin Hr)
    as (stats_pre & l & Hrun).
  exists stats_pre, l. split; [exact Hrun|].
  destruct (OptInterp_run_Done _ _ _ _ _ _ _ _ Hrun)
    as (_ & _ & Hmu & HPC & _).
  rewrite OptInterp_run_app, Hrun. cbn [for_ticks].
  unfold OptInterp_tick. rewrite Hk, Hy, Hmu, HPC. reflexivity.
Qed.

(** X9.  The same for [Var3D]: it raises [IndexError] at the tick whose
    observation is missing, after assessing its forecast, and runs no later
    tick.  The closure keeps the array assigned at the start of the call:
    [B] has been scaled by [xB] although the call failed. *)
Theorem Var3D_missing_observation (c : Var3D_closure) (stats : Stats)
    (hmm : HMM) (xx : Traj) (yy : list Vec) (pre post : list Tick) (tk : Tick)
    (j : nat) (B : Mat) :
  Var3D_resolve_B air c xx = Done B ->
  obs_in_range pre yy ->
  tk_kObs tk = Some j -> nth_error yy j = None ->
  exists stats_pre l,
    Var3D_run ecl air c stats hmm xx yy pre
    = (mkVar3D (B_arr B) (cl_xB c), (stats_pre, Done l))
    /\ Var3D_run ecl air c stats hmm xx yy (pre ++ tk :: post)
       = (mkVar3D (B_arr B) (cl_xB c),
          (assess stats_pre (tk_k tk) (Some j) (Some "f"%string)
             (Dyn hmm (v3_mu l) (xsub (tk_t tk) (tk_dt tk)) (tk_dt tk))
             (CovArr (mscale (v3_SM l (Fin (IZR (tk_k tk))))
                             (mscale (Fin 2) (cov xx)))),
           Raised IndexError)).
Proof.
  intros HB Hr Hk Hy.
  destruct (Var3D_run_total ecl air c stats hmm xx yy pre B HB Hr)
    as (stats_pre & l & Hrun).
  exists stats_pre, l. split; [exact Hrun|].
  destruct (Var3D_run_Done _ _ _ _ _ _ _ _ _ _ _ Hrun)
    as (B' & _ & _ & _ & HCC & _).
  rewrite Var3D_run_app, Hrun. cbn [for_ticks].
  unfold Var3D_tick. rewrite Hk, Hy, HCC. reflexivity.
Qed.

(** ** What the runs leave alone *)

Lemma Var3D_tick_log (hmm : HMM) (yy : list Vec) (stats : Stats)
    (l : V3_locals) (tk : Tick) :
  exists new,
    assessments (fst (Var3D_tick hmm yy stats l tk)) = assessments stats ++ new
    /\ trHK (fst (Var3D_tick hmm yy stats l tk)) = trHK stats.
Proof.
  unfold Var3D_tick.
  destruct (tk_kObs tk) as [j|]; [destruct (nth_error yy j) as [y|]|];
    cbn [fst assess assessments trHK]; eexists; split;
    try reflexivity; rewrite <- ?app_assoc; reflexivity.
Qed.

Lemma Var3D_loop_log (hmm : HMM) (yy : list Vec) (ticks : list Tick)
    (stats : Stats) (l : V3_locals) :
  exists new,
    assessments (fst (for_ticks (Var3D_tick hmm yy) ticks stats l))
    = assessments stats ++ new
    /\ trHK (fst (for_ticks (Var3D_tick hmm yy) ticks stats l)) = trHK stats.
Proof.
  revert stats l. induction ticks as [|tk ticks IH]; intros stats l; simpl.
  - exists []. now rewrite app_nil_r.
  - destruct (Var3D_tick_log hmm yy stats l tk) as [new1 [Ha Ht]].
    destruct (Var3D_tick hmm yy stats l tk) as [s1 [l1 | e]];
      cbn [fst] in Ha, Ht.
    + destruct (IH s1 l1) as [new2 [Ha2 Ht2]].
      exists (new1 ++ new2). rewrite Ha2, Ht2, Ha, Ht, app_assoc. now split.
    + exists new1. now split.
Qed.

(** X10.  Whatever their inputs and however they end, [OptInterp] and
    [Var3D] only add assessments to the statistics: the assessments that
    were there stay, in place, and the series [trHK] is not written (it is
    [Climatology] that sets it to zero).  [Var3D] never assigns [xB]. *)
Theorem runs_only_append (c : Var3D_closure) (stats : Stats) (hmm : HMM)
    (xx : Traj) (yy : list Vec) (ticks : list Tick) :
  (let r := OptInterp_run ecl stats hmm xx yy ticks in
   trHK (fst r) = trHK stats
   /\ exists new, assessments (fst r) = assessments stats ++ new)
  /\ (let r := Var3D_run ecl air c stats hmm xx yy ticks in
      cl_xB (fst r) = cl_xB c
      /\ trHK (fst (snd r)) = trHK stats
      /\ exists new, assessments (fst (snd r)) = assessments stats ++ new).
Proof.
  split; cbv zeta.
  - unfold OptInterp_run, OptInterp_setup.
    destruct (all_isfinite (Obs_linear hmm None NaN)); cbn [negb].
    + match goal with
      | |- context [for_ticks ?b ticks ?s0 ?l0] =>
          destruct (OptInterp_loop_log hmm yy ticks s0 l0) as [new [Ha Ht]]
      end.
      rewrite Ha, Ht. split; [reflexivity|].
      cbn [assess assessments]. rewrite <- app_assoc. now eexists.
    + cbn [fst]. split; [reflexivity|]. exists []. now rewrite app_nil_r.
  - destruct (Var3D_resolve_B air c xx) as [B | e] eqn:HB.
    + rewrite (Var3D_run_resolved _ _ _ _ _ _ _ _ B HB). cbn [fst snd].
      destruct (Var3D_loop_log hmm yy ticks
                  (fst (Var3D_setup ecl B stats hmm xx))
                  (snd (Var3D_setup ecl B stats hmm xx))) as [new [Ha Ht]].
      rewrite Ha, Ht. split; [reflexivity|]. split; [reflexivity|].
      cbn [Var3D_setup fst assess assessments].
      rewrite <- app_assoc. now eexists.
    + rewrite (Var3D_run_raised _ _ _ _ _ _ _ _ e HB). cbn [fst snd].
      split; [reflexivity|]. split; [reflexivity|].
      exists []. now rewrite app_nil_r.
Qed.

(** ** The covariance that [OptInterp] reports after an analysis *)

(** X11.  [OptInterp] reports one and the same covariance after every
    analysis: at an observation tick the sigmoid is fitted again at that
    very step, so its value there is the value of a curve at its anchor,
    which depends neither on the step nor on the observation nor on the
    forecast; the covariance assessed is [2*PC] times that value. *)
Theorem OptInterp_analysis_covariance (stats : Stats) (hmm : HMM) (xx : Traj)
    (yy : list Vec) (ticks : list Tick) (tk : Tick) (j : nat) (y : Vec)
    (stats' : Stats) (l : OI_locals) :
  OptInterp_run ecl stats hmm xx yy ticks = (stats', Done l) ->
  tk_kObs tk = Some j -> nth_error yy j = Some y ->
  let H := Obs_linear hmm None NaN in
  let muC := mean0 xx in
  let AC := tsubv xx muC in
  let PC := mdivs (tmatmul AC AC) (Fin (IZR (shape0 xx - 1))) in
  let KG := mrdiv (matmul PC (transpose H))
                  (madd (matmul (matmul H PC) (transpose H))
                        (full (Obs_noise_C hmm))) in
  let P := matmul (msub (eye (Dyn_M hmm)) (matmul KG H)) PC in
  let Ca := mscale (fit_sigmoid (xdiv (trace P) (trace PC)) (ecl (ravelF AC))
                                (Fin 0) (Fin 0))
                   (mscale (Fin 2) PC) in
  exists stats'' l' mu,
    OptInterp_run ecl stats hmm xx yy (ticks ++ [tk]) = (stats'', Done l')
    /\ assessments stats''
       = assessments stats'
         ++ [mkAssess (tk_k tk) (Some j) (Some "f"%string) muC (CovArr PC);
             mkAssess (tk_k tk) (Some j) None mu (CovArr Ca)].
Proof.
  intros Hrun Hk Hy H muC AC PC KG P Ca.
  destruct (OptInterp_refit_anchor ecl _ _ _ _ _ _ _ _ _ _ Hrun Hk Hy)
    as (stats'' & l' & Hrun' & HSM & Hlog).
  exists stats'', l', (oi_mu l'). split; [exact Hrun'|].
  rewrite Hlog, HSM, fit_sigmoid_at_anchor. reflexivity.
Qed.

End RunsMore.

Section ForecastsMore.

Context {LA : LinAlg}.
Variable ecl : Flat -> xreal.
Variable air : Mat -> bool.

(** Ticks that are no observation times leave the sigmoid, the gain and [B]
    of [Var3D] as they are, and report the sigmoid's value times [CC]. *)
Lemma Var3D_forecast_loop (hmm : HMM) (yy : list Vec) (ticks : list Tick)
    (stats : Stats) (l : V3_locals) :
  (forall tk, In tk ticks -> tk_kObs tk = None) ->
  exists stats' l',
    for_ticks (Var3D_tick hmm yy) ticks stats l = (stats', Done l')
    /\ v3_SM l' = v3_SM l /\ v3_CC l' = v3_CC l /\ v3_KG l' = v3_KG l
    /\ map a_Cov (assessments stats')
       = map a_Cov (assessments stats)
         ++ map (fun tk => CovArr (mscale (v3_SM l (Fin (IZR (tk_k tk))))
                                          (v3_CC l))) ticks.
Proof.
  revert stats l. induction ticks as [|tk ticks IH]; intros stats l Hno;
    cbn [for_ticks map].
  - exists stats, l. now rewrite app_nil_r.
  - unfold Var3D_tick at 1. rewrite (Hno tk (or_introl eq_refl)).
    match goal with
    | |- context [for_ticks _ ticks ?s1 ?l1] =>
        destruct (IH s1 l1 (fun tk0 Hin => Hno tk0 (or_intror Hin)))
          as (s' & l' & Hrun & HSM & HCC & HKG & Hlog)
    end.
    exists s', l'. split; [exact Hrun|].
    cbn [v3_SM v3_CC v3_KG assess assessments] in HSM, HCC, HKG, Hlog.
    rewrite HSM, HCC, HKG, Hlog, map_app, <- app_assoc. now repeat split.
Qed.

(** X12.  Between observations [Var3D] neither computes a gain nor fits the
    sigmoid: over ticks that are no observation times the run goes on
    without raising, the sigmoid and the gain stay what they were, and the
    covariance assessed at step [k] is the value at [k] of that one sigmoid
    times [2*cov(xx)]. *)
Theorem Var3D_forecast_covariances (c c' : Var3D_closure) (stats : Stats)
    (hmm : HMM) (xx : Traj) (yy : list Vec) (pre post : list Tick)
    (stats' : Stats) (l : V3_locals) :
  Var3D_run ecl air c stats hmm xx yy pre = (c', (stats', Done l)) ->
  (forall tk, In tk post -> tk_kObs tk = None) ->
  exists stats'' l',
    Var3D_run ecl air c stats hmm xx yy (pre ++ post)
    = (c', (stats'', Done l'))
    /\ v3_SM l' = v3_SM l /\ v3_KG l' = v3_KG l
    /\ map a_Cov (assessments stats'')
       = map a_Cov (assessments stats')
         ++ map (fun tk => CovArr (mscale (v3_SM l (Fin (IZR (tk_k tk))))
                                          (mscale (Fin 2) (cov xx)))) post.
Proof.
  intros Hrun Hno.
  destruct (Var3D_run_Done _ _ _ _ _ _ _ _ _ _ _ Hrun)
    as (B & _ & _ & _ & HCC & _).
  destruct (Var3D_forecast_loop hmm yy post stats' l Hno)
    as (s'' & l' & Hloop & HSM & _ & HKG & Hlog).
  exists s'', l'. rewrite Var3D_run_app, Hrun, Hloop.
  rewrite HCC in Hlog. now repeat split.
Qed.

(** X13.  When the initial covariance [X0.C] is so wide that the ratio
    [trace(X0.C)/trace(2*cov(xx))] is no number of the interval from 0 to 1,
    the sigmoid that [Var3D] fits at the start is [nan] everywhere: the run
    does not raise, but until the first observation every covariance it
    assesses after the initial one is [nan * 2*cov(xx)]. *)
Theorem Var3D_nan_forecast_covariance (c : Var3D_closure) (stats : Stats)
    (hmm : HMM) (xx : Traj) (yy : list Vec) (ticks : list Tick) (B : Mat) :
  Var3D_resolve_B air c xx = Done B ->
  anchor_out (xdiv (trace (full (X0_C hmm))) (trace (mscale (Fin 2) (cov xx)))) ->
  (forall tk, In tk ticks -> tk_kObs tk = None) ->
  exists stats' l,
    Var3D_run ecl air c stats hmm xx yy ticks
    = (mkVar3D (B_arr B) (cl_xB c), (stats', Done l))
    /\ map a_Cov (assessments stats')
       = map a_Cov (assessments stats)
         ++ CovArr (full (X0_C hmm))
            :: map (fun _ => CovArr (mscale NaN (mscale (Fin 2) (cov xx)))) ticks.
Proof.
  intros HB Hout Hno.
  rewrite (Var3D_run_resolved _ _ _ _ _ _ _ _ B HB).
  destruct (Var3D_forecast_loop hmm yy ticks
              (fst (Var3D_setup ecl B stats hmm xx))
              (snd (Var3D_setup ecl B stats hmm xx)) Hno)
    as (s' & l' & Hloop & _ & _ & _ & Hlog).
  exists s', l'. rewrite Hloop. split; [reflexivity|].
  rewrite Hlog. cbn [Var3D_setup fst snd v3_SM v3_CC assess assessments].
  rewrite map_app, <- app_assoc. cbn [map app]. do 2 f_equal.
  apply map_ext. intros tk.
  now rewrite (fit_sigmoid_anchor_out _ _ _ _ Hout).
Qed.

End ForecastsMore.

Section OptInterpPerfect.

Context {LA : LinAlg} {LL : LinAlgLaws LA}.
Variable ecl : Flat -> xreal.

(** X14.  The perfect-observation limit of [OptInterp].  Let the observation
    operator be the identity without noise, and the climatological
    covariance [PC] be a finite array with an inverse.  Then the gain is the
    identity, and at every observation tick the mean after the analysis is
    the observation [yy[kObs]]: it is what the tick hands to
    [stats.assess]. *)
Theorem OptInterp_perfect_observation (stats : Stats) (hmm : HMM) (xx : Traj)
    (yy : list Vec) (ticks : list Tick) (tk : Tick) (j : nat) (y : Vec)
    (stats' : Stats) (l : OI_locals) (PCi : Mat) :
  let M := Dyn_M hmm in
  let muC := mean0 xx in
  let PC := mdivs (tmatmul (tsubv xx muC) (tsubv xx muC))
                  (Fin (IZR (shape0 xx - 1))) in
  (forall x t, Obs hmm x t = x) ->
  Obs_linear hmm None NaN = eye M ->
  full (Obs_noise_C hmm) = zeros M M ->
  is_mat M M PC -> is_mat M M PCi ->
  matmul PC PCi = eye M -> matmul PCi PC = eye M ->
  is_vec M muC -> is_vec M y ->
  OptInterp_run ecl stats hmm xx yy ticks = (stats', Done l) ->
  tk_kObs tk = Some j -> nth_error yy j = Some y ->
  exists stats'' l' Ca,
    OptInterp_run ecl stats hmm xx yy (ticks ++ [tk]) = (stats'', Done l')
    /\ oi_KG l' = eye M
    /\ oi_mu l' = y
    /\ assessments stats''
       = assessments stats'
         ++ [mkAssess (tk_k tk) (Some j) (Some "f"%string) muC (CovArr PC);
             mkAssess (tk_k tk) (Some j) None y Ca].
Proof.
  intros M muC PC HObs HH HR HPC HPCi Hinv Hinv' Hmu Hy Hrun Hk Hyy.
  destruct (OptInterp_run_Done _ _ _ _ _ _ _ _ Hrun)
    as (_ & _ & HmuC & HPCl & HKG & _).
  fold muC in HmuC. fold muC PC in HPCl. fold muC PC in HKG.
  assert (HKG' : oi_KG l = eye M).
  { rewrite HKG, HH, HR, transpose_eye.
    rewrite (matmul_eye_l M M PC HPC), (matmul_eye_r M M PC HPC).
    rewrite (madd_zeros_r M M PC HPC).
    rewrite (mrdiv_inverse M M PC PC PCi) by assumption. exact Hinv. }
  rewrite OptInterp_run_snoc, Hrun. unfold OptInterp_tick. rewrite Hk, Hyy.
  rewrite HmuC, HPCl, HKG', HObs.
  rewrite (matvec_eye M) by now apply is_vec_vsub.
  rewrite (vadd_vsub M) by assumption.
  eexists. eexists. eexists. split; [reflexivity|].
  cbn [oi_KG oi_mu assess assessments]. rewrite <- app_assoc.
  now repeat split.
Qed.

End OptInterpPerfect.


(* ================================================================== *)
(** * The two-dimensional instance: algebra *)
(* ================================================================== *)

Section Dim2Algebra.

Import Dim2.

Lemma Rsign_zero_inv (r : R) : Rsign r = Zero -> r = 0.
Proof.
  unfold Rsign. destruct (total_order_T r 0) as [[Hlt | Heq] | Hgt];
    intros H; try discriminate; exact Heq.
Qed.

Lemma xmul_1_l (x : xreal) : xmul (Fin 1) x = x.
Proof.
  destruct x; cbn [xmul].
  - f_equal. lra.
  - now rewrite Rsign_pos by lra.
  - now rewrite Rsign_pos by lra.
  - reflexivity.
Qed.

Lemma m2_finite_inv (A : M2) :
  m2_all_isfinite A = true ->
  exists a b c d, A = mkM2 (Fin a) (Fin b) (Fin c) (Fin d).
Proof.
  destruct A as [[a| | |] [b| | |] [c| | |] [d| | |]]; cbn;
    try discriminate. intros _. now exists a, b, c, d.
Qed.

Lemma v2_finite_inv (v : V2) :
  is_finite (vx v) && is_finite (vy v) = true ->
  exists x y, v = mkV2 (Fin x) (Fin y).
Proof.
  destruct v as [[x| | |] [y| | |]]; cbn; try discriminate.
  intros _. now exists x, y.
Qed.

Lemma m2_eq (a b c d a' b' c' d' : R) :
  a = a' -> b = b' -> c = c' -> d = d' ->
  mkM2 (Fin a) (Fin b) (Fin c) (Fin d) = mkM2 (Fin a') (Fin b') (Fin c') (Fin d').
Proof. now intros -> -> -> ->. Qed.

Lemma diag2_eq (a b : R) : a = b -> diag2 a = diag2 b.
Proof. now intros ->. Qed.

Lemma fv_eq (x y x' y' : R) : x = x' -> y = y' -> fv x y = fv x' y'.
Proof. now intros -> ->. Qed.

Lemma m2_matmul_eye_r (m n : nat) (A : M2) :
  is_mat2 m n A -> m2_matmul A m2_eye = A.
Proof.
  intros (_ & _ & HA). destruct (m2_finite_inv A HA) as (a & b & c & d & ->).
  apply m2_eq; lra.
Qed.

Lemma m2_matmul_eye_l (m n : nat) (A : M2) :
  is_mat2 m n A -> m2_matmul m2_eye A = A.
Proof.
  intros (_ & _ & HA). destruct (m2_finite_inv A HA) as (a & b & c & d & ->).
  apply m2_eq; lra.
Qed.

Lemma m2_madd_zeros_r (m n : nat) (A : M2) :
  is_mat2 m n A -> m2_map2 xadd A m2_zeros = A.
Proof.
  intros (_ & _ & HA). destruct (m2_finite_inv A HA) as (a & b & c & d & ->).
  apply m2_eq; lra.
Qed.

Lemma m2_mscale_one (A : M2) : m2_map (xmul (Fin 1)) A = A.
Proof.
  destruct A. unfold m2_map. cbn [m11 m12 m21 m22]. now rewrite !xmul_1_l.
Qed.

(** The pseudo-inverse of a matrix that has an inverse is that inverse. *)
Lemma R4_pinv_inverse (a b c d p q r s : R) :
  a * p + b * r = 1 -> a * q + b * s = 0 ->
  c * p + d * r = 0 -> c * q + d * s = 1 ->
  R4_pinv a b c d = (p, q, r, s).
Proof.
  intros H1 H2 H3 H4.
  assert (Hdd : (a * d - b * c) * (p * s - q * r) = 1) by nsatz.
  assert (Hdet : a * d - b * c <> 0).
  { intros Hz. rewrite Hz in Hdd. lra. }
  assert (Hp : d / (a * d - b * c) = p).
  { apply (Rmult_eq_reg_r (a * d - b * c)); [|exact Hdet].
    unfold Rdiv. rewrite Rmult_assoc, Rinv_l, Rmult_1_r by exact Hdet. nsatz. }
  assert (Hq : - b / (a * d - b * c) = q).
  { apply (Rmult_eq_reg_r (a * d - b * c)); [|exact Hdet].
    unfold Rdiv. rewrite Rmult_assoc, Rinv_l, Rmult_1_r by exact Hdet. nsatz. }
  assert (Hr : - c / (a * d - b * c) = r).
  { apply (Rmult_eq_reg_r (a * d - b * c)); [|exact Hdet].
    unfold Rdiv. rewrite Rmult_assoc, Rinv_l, Rmult_1_r by exact Hdet. nsatz. }
  assert (Hs : a / (a * d - b * c) = s).
  { apply (Rmult_eq_reg_r (a * d - b * c)); [|exact Hdet].
    unfold Rdiv. rewrite Rmult_assoc, Rinv_l, Rmult_1_r by exact Hdet. nsatz. }
  unfold R4_pinv.
  destruct (Rsign (a * d - b * c)) eqn:Hsg.
  - now rewrite Hp, Hq, Hr, Hs.
  - apply Rsign_zero_inv in Hsg. contradiction.
  - now rewrite Hp, Hq, Hr, Hs.
Qed.

Lemma m2_mrdiv_inverse (m n : nat) (b A Ai : M2) :
  is_mat2 m n b -> is_mat2 n n A -> is_mat2 n n Ai ->
  m2_matmul A Ai = m2_eye -> m2_matmul Ai A = m2_eye ->
  m2_mrdiv b A = m2_matmul b Ai.
Proof.
  intros (_ & _ & Hb) (_ & _ & HA) (_ & _ & HAi) H1 _.
  destruct (m2_finite_inv A HA) as (a11 & a12 & a21 & a22 & ->).
  destruct (m2_finite_inv Ai HAi) as (p & q & r & s & ->).
  unfold m2_mrdiv. rewrite Hb.
  unfold m2_matmul, m2_eye in H1. cbn in H1.
  injection H1 as E1 E2 E3 E4.
  now rewrite (R4_pinv_inverse a11 a12 a21 a22 p q r s E1 E2 E3 E4).
Qed.

Lemma m2_matvec_eye (n : nat) (v : V2) :
  is_vec2 n v -> m2_matvec m2_eye v = v.
Proof.
  intros (_ & Hv). destruct (v2_finite_inv v Hv) as (x & y & ->).
  apply fv_eq; lra.
Qed.

Lemma v2_is_vec_vsub (n : nat) (u v : V2) :
  is_vec2 n u -> is_vec2 n v -> is_vec2 n (v2_map2 xsub u v).
Proof.
  intros (Hn & Hu) (_ & Hv).
  destruct (v2_finite_inv u Hu) as (x & y & ->).
  destruct (v2_finite_inv v Hv) as (x' & y' & ->).
  now split.
Qed.

Lemma v2_vadd_vsub (n : nat) (u v : V2) :
  is_vec2 n u -> is_vec2 n v -> v2_map2 xadd u (v2_map2 xsub v u) = v.
Proof.
  intros (_ & Hu) (_ & Hv).
  destruct (v2_finite_inv u Hu) as (x & y & ->).
  destruct (v2_finite_inv v Hv) as (x' & y' & ->).
  apply fv_eq; lra.
Qed.

(** The two-dimensional arrays satisfy the laws. *)
Definition LL2 : LinAlgLaws LA2 := {|
  is_mat := is_mat2;
  is_vec := is_vec2;
  zeros := fun _ _ => m2_zeros;
  transpose_eye := fun _ => eq_refl;
  matmul_eye_r := m2_matmul_eye_r;
  matmul_eye_l := m2_matmul_eye_l;
  madd_zeros_r := m2_madd_zeros_r;
  mscale_one := m2_mscale_one;
  mrdiv_inverse := m2_mrdiv_inverse;
  matvec_eye := m2_matvec_eye;
  is_vec_vsub := v2_is_vec_vsub;
  vadd_vsub := v2_vadd_vsub
|}.

(** ** Diagonal matrices *)

Lemma m2_eye_diag : m2_eye = diag2 1.
Proof. reflexivity. Qed.

Lemma m2_transpose_diag (a : R) : m2_transpose (diag2 a) = diag2 a.
Proof. reflexivity. Qed.

Lemma m2_matmul_diag (a b : R) : m2_matmul (diag2 a) (diag2 b) = diag2 (a * b).
Proof. apply m2_eq; lra. Qed.

Lemma m2_madd_diag (a b : R) : m2_map2 xadd (diag2 a) (diag2 b) = diag2 (a + b).
Proof. apply m2_eq; lra. Qed.

Lemma m2_msub_diag (a b : R) : m2_map2 xsub (diag2 a) (diag2 b) = diag2 (a - b).
Proof. apply m2_eq; lra. Qed.

Lemma m2_mscale_diag (s a : R) : m2_map (xmul (Fin s)) (diag2 a) = diag2 (s * a).
Proof. apply m2_eq; lra. Qed.

Lemma m2_trace_diag (a : R) : m2_trace (diag2 a) = Fin (2 * a).
Proof. unfold m2_trace, diag2. cbn. f_equal. lra. Qed.

Lemma m2_matvec_diag (a x y : R) :
  m2_matvec (diag2 a) (fv x y) = fv (a * x) (a * y).
Proof. apply fv_eq; lra. Qed.

Lemma v2_vadd_fv (x y x' y' : R) :
  v2_map2 xadd (fv x y) (fv x' y') = fv (x + x') (y + y').
Proof. reflexivity. Qed.

Lemma v2_vsub_fv (x y x' y' : R) :
  v2_map2 xsub (fv x y) (fv x' y') = fv (x - x') (y - y').
Proof. reflexivity. Qed.

(** Division by a multiple of the identity; by zero the pseudo-inverse
    gives zero. *)
Lemma m2_mrdiv_diag (b a : R) :
  a <> 0 -> m2_mrdiv (diag2 b) (diag2 a) = diag2 (b / a).
Proof.
  intros Ha.
  rewrite (m2_mrdiv_inverse 2 2 (diag2 b) (diag2 a) (diag2 (/ a))).
  - rewrite m2_matmul_diag. now apply diag2_eq.
  - now repeat split.
  - now repeat split.
  - now repeat split.
  - rewrite m2_matmul_diag. apply diag2_eq. now apply Rinv_r.
  - rewrite m2_matmul_diag. apply diag2_eq. now apply Rinv_l.
Qed.

Lemma m2_mrdiv_diag_zero (b a : R) :
  a = 0 -> m2_mrdiv (diag2 b) (diag2 a) = diag2 0.
Proof.
  intros ->. unfold m2_mrdiv, diag2, R4_pinv. cbn [m2_all_isfinite is_finite andb
    m11 m12 m21 m22].
  rewrite Rsign_zero by lra. rewrite Rsign_zero by lra.
  apply m2_eq; lra.
Qed.

End Dim2Algebra.

(* ================================================================== *)
(** * The two-dimensional instance: runs *)
(* ================================================================== *)

Section Dim2Runs.

Import Dim2.

(** Unfolds the interface at the instance and the collaborators of the
    examples, and nothing of the arithmetic. *)
Ltac dim2_unfold :=
  cbv beta iota zeta delta
    [Var3D Var3D_gain ticker hmm_id tick1 tick2
     tk_k tk_kObs tk_t tk_dt cl_B cl_xB
     Dyn Obs Obs_linear Obs_noise_C X0_mu X0_C Dyn_M
     dyn_id obs_id obs_id_linear fst snd unit_corr_length
     matmul transpose madd msub mscale mdivs eye trace all_isfinite matvec
     vadd vsub mean0 tsubv tmatmul shape0 cov ravelF center mrdiv CovMat_A full
     LA2 Vec Mat Traj Flat CovMat].

Lemma t_mean0_xx5 : t_mean0 xx5 = fv 0 0.
Proof.
  unfold t_mean0, xx5, fv, xsum. cbn [map fold_left vx vy xadd List.length INR].
  rewrite !xdiv_fin by lra. apply fv_eq; field.
Qed.

Lemma t_subv_xx5 : t_subv xx5 (fv 0 0) = xx5.
Proof.
  unfold t_subv, xx5. cbn [map]. rewrite !v2_vsub_fv.
  repeat (f_equal; try (apply fv_eq; lra)).
Qed.

Lemma t_matmul_xx5 : t_matmul xx5 xx5 = diag2 4.
Proof.
  unfold t_matmul, xx5, fv, xsum.
  cbn [combine map fold_left vx vy fst snd xadd xmul].
  apply m2_eq; lra.
Qed.

(** The covariance that [OptInterp] computes from [xx5]. *)
Lemma OI_PC_xx5 :
  m2_map (fun a => xdiv a (Fin (IZR (Z.of_nat (List.length xx5) - 1))))
         (t_matmul (t_subv xx5 (t_mean0 xx5)) (t_subv xx5 (t_mean0 xx5)))
  = diag2 1.
Proof.
  rewrite t_mean0_xx5, t_subv_xx5, t_matmul_xx5.
  change (Z.of_nat (List.length xx5) - 1)%Z with 4%Z.
  unfold m2_map, diag2. cbn [m11 m12 m21 m22].
  rewrite !xdiv_fin by lra. apply m2_eq; field.
Qed.

Lemma t_cov_xx5 : t_cov xx5 = diag2 1.
Proof.
  unfold t_cov, t_cov_of_anomalies.
  rewrite t_mean0_xx5, t_subv_xx5, t_matmul_xx5.
  unfold m2_map, diag2. cbn [m11 m12 m21 m22 List.length xx5 INR].
  rewrite !xdiv_fin by lra. apply m2_eq; field.
Qed.

Lemma t_cov_xx_still : t_cov xx_still = diag2 0.
Proof.
  unfold t_cov, t_cov_of_anomalies, t_mean0, xx_still, fv, xsum.
  cbn [map fold_left vx vy xadd List.length INR].
  rewrite !xdiv_fin by lra.
  unfold t_subv, t_matmul, v2_map2, xsum.
  cbn [map combine fold_left vx vy fst snd xadd xmul xsub xneg List.length INR].
  unfold m2_map, diag2. cbn [m11 m12 m21 m22].
  rewrite !xdiv_fin by lra. apply m2_eq; field.
Qed.

Create Rewrite HintDb dim2.
#[local] Hint Rewrite m2_eye_diag m2_transpose_diag m2_matmul_diag m2_madd_diag
  m2_msub_diag m2_mscale_diag m2_trace_diag m2_matvec_diag v2_vadd_fv v2_vsub_fv
  t_cov_xx5 t_cov_xx_still OI_PC_xx5 : dim2.

Lemma tick1_in_range (yy : list V2) : obs_in_range (LA:=LA2) [tick1] yy.
Proof. intros tk j [<- | []] Hk. discriminate Hk. Qed.

Lemma ticks2_in_range (y : V2) : obs_in_range (LA:=LA2) ticks2 [y].
Proof.
  intros tk j [<- | [<- | []]] Hk; [discriminate Hk|].
  injection Hk as <-. apply Nat.lt_0_1.
Qed.

(** The gain of [OptInterp] on [xx5], observed directly with unit noise. *)
Lemma OptInterp_gain_computed_once_witness :
  exists stats' l,
    OptInterp_run (LA:=LA2) unit_corr_length empty_stats (hmm_id 1) xx5
      [fv 3 4] ticks2 = (stats', Done l)
    /\ oi_KG l = diag2 (1 / 2).
Proof.
  destruct (OptInterp_run_total (LA:=LA2) unit_corr_length empty_stats
              (hmm_id 1) xx5 [fv 3 4] ticks2 eq_refl (ticks2_in_range _))
    as (s & l & Hrun).
  exists s, l. split; [exact Hrun|].
  rewrite (proj1 (OptInterp_gain_computed_once (LA:=LA2) unit_corr_length
                    empty_stats (hmm_id 1) xx5 [fv 3 4] ticks2 s l Hrun)).
  dim2_unfold. autorewrite with dim2.
  rewrite m2_mrdiv_diag by lra. apply diag2_eq. field.
Defined.

(** The analysis of [OptInterp] on [xx5] for the observation (3,4). *)
Lemma OptInterp_analysis_from_climatology_witness :
  exists stats'' l',
    OptInterp_run (LA:=LA2) unit_corr_length empty_stats (hmm_id 1) xx5
      [fv 3 4] ([tick1] ++ [tick2]) = (stats'', Done l')
    /\ oi_mu l' = fv (3 / 2) 2.
Proof.
  destruct (OptInterp_run_total (LA:=LA2) unit_corr_length empty_stats
              (hmm_id 1) xx5 [fv 3 4] [tick1] eq_refl (tick1_in_range _))
    as (s & l & Hrun).
  destruct (proj1 (OptInterp_analysis_from_climatology (LA:=LA2)
                     unit_corr_length empty_stats (hmm_id 1) xx5 [fv 3 4]
                     [tick1] tick2 0%nat (fv 3 4) s l Hrun eq_refl eq_refl))
    as (s' & l' & C & Hrun' & Hmu & _).
  exists s', l'. split; [exact Hrun'|]. rewrite Hmu.
  dim2_unfold. autorewrite with dim2. rewrite !t_mean0_xx5.
  rewrite m2_mrdiv_diag by lra. autorewrite with dim2.
  apply fv_eq; field.
Defined.


(** ** The perfect-observation limit on [xx5] *)

Lemma hmm_id_Obs (r : R) (x : V2) (t : xreal) : Obs (hmm_id r) x t = x.
Proof. reflexivity. Qed.

Lemma hmm_id_Obs_linear (r : R) (x : option V2) (t : xreal) :
  Obs_linear (hmm_id r) x t = eye (LinAlg:=LA2) (Dyn_M (hmm_id r)).
Proof. reflexivity. Qed.

Lemma hmm_id_Dyn_vec (r : R) (x : V2) (t dt : xreal) :
  is_vec2 2 x -> is_vec2 2 (Dyn (hmm_id r) x t dt).
Proof. intros H. exact H. Qed.

Lemma cov_xx5_mat : is_mat2 2 2 (t_cov xx5).
Proof. rewrite t_cov_xx5. now repeat split. Qed.

Lemma cov_xx5_inverse :
  m2_matmul (t_cov xx5) (diag2 1) = m2_eye
  /\ m2_matmul (diag2 1) (t_cov xx5) = m2_eye.
Proof.
  rewrite t_cov_xx5, m2_matmul_diag, m2_eye_diag.
  split; apply diag2_eq; lra.
Qed.

(** With [B] the covariance of [xx5], the identity observed without noise
    and the observation (3,4), the analysis returns (3,4). *)
Lemma Var3D_perfect_observation_witness :
  exists stats'' l',
    snd (Var3D_run (LA:=LA2) unit_corr_length in_raises_elementwise
           (Var3D B_None (Fin 1)) empty_stats (hmm_id 0) xx5 [fv 3 4]
           ([tick1] ++ [tick2]))
    = (stats'', Done l')
    /\ v3_mu l' = fv 3 4.
Proof.
  destruct (Var3D_run_total (LA:=LA2) unit_corr_length in_raises_elementwise
              (Var3D B_None (Fin 1)) empty_stats (hmm_id 0) xx5 [fv 3 4]
              [tick1] _ eq_refl (tick1_in_range _))
    as (s & l & Hrun).
  destruct (Var3D_perfect_observation (LA:=LA2) (LL:=LL2) unit_corr_length
              in_raises_elementwise (hmm_id 0) xx5 [fv 3 4]
              (hmm_id_Obs 0) (hmm_id_Obs_linear 0) eq_refl (diag2 1)
              cov_xx5_mat (conj eq_refl (conj eq_refl eq_refl))
              (proj1 cov_xx5_inverse) (proj2 cov_xx5_inverse)
              (conj eq_refl eq_refl) (hmm_id_Dyn_vec 0)
              (Forall_cons (fv 3 4) (conj eq_refl eq_refl) (Forall_nil _))
              B_None empty_stats [tick1] tick2 0%nat (fv 3 4) _ s l
              (or_introl eq_refl) Hrun eq_refl eq_refl)
    as (s' & l' & mu_f & Cf & Ca & Hrun' & Hmu & _).
  exists s', l'. split; [now rewrite Hrun' | exact Hmu].
Defined.

(** ** A trajectory that stands still *)

(** The covariance of [xx_still] is zero, the gain [mrdiv(0,0)] is zero, and
    the mean after the analysis is the forecast (0,0), not the observation
    (3,4). *)
Lemma Var3D_singular_covariance_counterexample :
  exists stats' l older C,
    snd (Var3D_assimilator (LA:=LA2) unit_corr_length in_raises_elementwise
           (Var3D B_None (Fin 1)) empty_stats (hmm_id 0) xx_still [fv 3 4])
    = (stats', Done l)
    /\ v3_KG l = Some (diag2 0)
    /\ v3_mu l = fv 0 0
    /\ assessments stats'
       = older ++ [mkAssess 2 (Some 0%nat) None (fv 0 0) C]
    /\ nth_error [fv 3 4] 0 = Some (fv 3 4)
    /\ fv 0 0 <> fv 3 4.
Proof.
  destruct (Var3D_run_nil (LA:=LA2) unit_corr_length in_raises_elementwise
              (Var3D B_None (Fin 1)) empty_stats (hmm_id 0) xx_still [fv 3 4]
              _ eq_refl)
    as (s0 & l0 & Hrun0 & Hmu0 & _).
  destruct (Var3D_forecast_tick (LA:=LA2) unit_corr_length _ _ _ _ _ _ _ _
              tick1 _ _ Hrun0 eq_refl)
    as (s1 & l1 & Hrun1 & Hmu1 & _).
  destruct (Var3D_run_Done _ _ _ _ _ _ _ _ _ _ _ Hrun1)
    as (B & HB & _ & HBl & _).
  injection HB as <-.
  destruct (Var3D_refit_anchor (LA:=LA2) unit_corr_length _ _ _ _ _ _ _ _
              tick2 0%nat (fv 3 4) _ _ Hrun1 eq_refl eq_refl)
    as (s2 & l2 & Hrun2 & _ & HKG & Hmu2 & _ & _ & Hlog).
  assert (HK : Var3D_gain (LA:=LA2) (hmm_id 0) (v3_B l1)
                 (Obs_linear (hmm_id 0)
                    (Some (Dyn (hmm_id 0) (v3_mu l1)
                             (xsub (tk_t tick2) (tk_dt tick2)) (tk_dt tick2)))
                    (tk_t tick2))
               = diag2 0).
  { rewrite HBl. dim2_unfold. autorewrite with dim2.
    rewrite m2_mrdiv_diag_zero by lra. reflexivity. }
  rewrite HK in HKG, Hmu2.
  assert (Hmu : v3_mu l2 = fv 0 0).
  { rewrite Hmu2, Hmu1, Hmu0. dim2_unfold. autorewrite with dim2.
    apply fv_eq; lra. }
  unfold Var3D_assimilator.
  change (ticker (hmm_id 0)) with ([] ++ [tick1] ++ [tick2]).
  rewrite app_assoc, Hrun2. cbn [snd].
  exists s2, l2. eexists. eexists.
  split; [reflexivity|]. split; [exact HKG|]. split; [exact Hmu|].
  split; [|split; [reflexivity|]].
  - rewrite Hlog, Hmu. apply (app_assoc (assessments s1) [_] [_]).
  - intros Heq. injection Heq as Hx _. lra.
Qed.

(** ** Two calls of one configured [Var3D] *)

Lemma Var3D_gain_hmm_id (r b : R) (x : option V2) (t : xreal) :
  b + r <> 0 ->
  Var3D_gain (LA:=LA2) (hmm_id r) (diag2 b) (Obs_linear (hmm_id r) x t)
  = diag2 (b / (b + r)).
Proof.
  intros Hbr. dim2_unfold. autorewrite with dim2.
  rewrite m2_mrdiv_diag by (intros Hz; apply Hbr; lra).
  apply diag2_eq. field. intros Hz; apply Hbr; lra.
Qed.

(** The final state of a call of [Var3D] on [xx5] and [hmm_id r] that gets
    past the test on [B]. *)
Lemma Var3D_call_xx5 (air : M2 -> bool) (r b : R) (c : Var3D_closure) :
  Var3D_resolve_B air c xx5 = Done (diag2 b) -> b + r <> 0 ->
  exists stats' l,
    Var3D_assimilator (LA:=LA2) unit_corr_length air c empty_stats (hmm_id r)
      xx5 [fv 3 4]
    = (mkVar3D (B_arr (diag2 b)) (cl_xB c), (stats', Done l))
    /\ v3_B l = diag2 b
    /\ v3_KG l = Some (diag2 (b / (b + r))).
Proof.
  intros HB Hbr.
  destruct (Var3D_run_total (LA:=LA2) unit_corr_length air c empty_stats
              (hmm_id r) xx5 [fv 3 4] [tick1] _ HB (tick1_in_range _))
    as (s1 & l1 & Hrun1).
  destruct (Var3D_run_Done _ _ _ _ _ _ _ _ _ _ _ Hrun1)
    as (B & HB' & _ & HBl & _).
  rewrite HB in HB'. injection HB' as <-.
  destruct (Var3D_refit_anchor (LA:=LA2) unit_corr_length _ _ _ _ _ _ _ _
              tick2 0%nat (fv 3 4) _ _ Hrun1 eq_refl eq_refl)
    as (s2 & l2 & Hrun2 & HBl2 & HKG & _).
  rewrite HBl in HBl2, HKG. rewrite Var3D_gain_hmm_id in HKG by exact Hbr.
  unfold Var3D_assimilator. change (ticker (hmm_id r)) with ([tick1] ++ [tick2]).
  rewrite Hrun2. exists s2, l2. now repeat split.
Qed.

Lemma resolve_B_clim_xx5 (air : M2 -> bool) (xB : R) :
  Var3D_resolve_B (LA:=LA2) air (Var3D B_None (Fin xB)) xx5 = Done (diag2 xB).
Proof.
  unfold Var3D_resolve_B, Var3D. cbn [cl_B cl_xB]. f_equal.
  dim2_unfold. autorewrite with dim2. apply diag2_eq. lra.
Qed.

(** The closure that a first call of [Var3D(xB=2)] on [xx5] leaves, and the
    gain of that call. *)
Lemma Var3D_first_call_xx5 (air : M2 -> bool) (r : R) :
  2 + r <> 0 ->
  exists s1 l1,
    Var3D_assimilator (LA:=LA2) unit_corr_length air (Var3D B_None (Fin 2))
      empty_stats (hmm_id r) xx5 [fv 3 4]
    = (mkVar3D (B_arr (diag2 2)) (Fin 2), (s1, Done l1))
    /\ v3_B l1 = diag2 2
    /\ v3_KG l1 = Some (diag2 (2 / (2 + r))).
Proof.
  intros Hr.
  exact (Var3D_call_xx5 air r 2 (Var3D B_None (Fin 2))
           (resolve_B_clim_xx5 air 2) Hr).
Qed.

Lemma Var3D_second_call_xx5 (r : R) :
  4 + r <> 0 ->
  exists s2 l2,
    Var3D_assimilator (LA:=LA2) unit_corr_length in_raises_never
      (mkVar3D (B_arr (diag2 2)) (Fin 2)) empty_stats (hmm_id r) xx5 [fv 3 4]
    = (mkVar3D (B_arr (diag2 4)) (Fin 2), (s2, Done l2))
    /\ v3_B l2 = diag2 4
    /\ v3_KG l2 = Some (diag2 (4 / (4 + r))).
Proof.
  intros Hr.
  assert (HB : Var3D_resolve_B (LA:=LA2) in_raises_never
                 (mkVar3D (B_arr (diag2 2)) (Fin 2)) xx5 = Done (diag2 4)).
  { unfold Var3D_resolve_B, in_raises_never. cbn [cl_B cl_xB]. f_equal.
    dim2_unfold. autorewrite with dim2. apply diag2_eq. lra. }
  exact (Var3D_call_xx5 in_raises_never r 4 _ HB Hr).
Qed.

(** [Var3D(xB=2)] called twice on [xx5], the identity observed without
    noise.  Where the test on [B] lets the array of the first call pass, the
    second call uses [B = 4*I] where the first used [2*I], and both have the
    gain [I].  Where the test raises for that array, the second call raises
    [ValueError] and has no gain at all. *)
Lemma Var3D_second_call_counterexample :
  (let r1 := Var3D_assimilator (LA:=LA2) unit_corr_length in_raises_never
               (Var3D B_None (Fin 2)) empty_stats (hmm_id 0) xx5 [fv 3 4] in
   let r2 := Var3D_assimilator (LA:=LA2) unit_corr_length in_raises_never
               (fst r1) empty_stats (hmm_id 0) xx5 [fv 3 4] in
   exists s1 l1 s2 l2,
     snd r1 = (s1, Done l1) /\ snd r2 = (s2, Done l2)
     /\ v3_B l1 = diag2 2 /\ v3_B l2 = diag2 4
     /\ v3_KG l1 = Some (diag2 1) /\ v3_KG l2 = Some (diag2 1))
  /\ (let r1 := Var3D_assimilator (LA:=LA2) unit_corr_length
                  in_raises_elementwise (Var3D B_None (Fin 2)) empty_stats
                  (hmm_id 0) xx5 [fv 3 4] in
      let r2 := Var3D_assimilator (LA:=LA2) unit_corr_length
                  in_raises_elementwise (fst r1) empty_stats (hmm_id 0) xx5
                  [fv 3 4] in
      fst r1 = mkVar3D (B_arr (diag2 2)) (Fin 2)
      /\ r2 = (fst r1, (empty_stats, Raised ValueError))).
Proof.
  split.
  - intros r1 r2.
    destruct (Var3D_first_call_xx5 in_raises_never 0 ltac:(lra))
      as (s1 & l1 & Hr1 & HB1 & HK1).
    destruct (Var3D_second_call_xx5 0 ltac:(lra)) as (s2 & l2 & Hr2 & HB2 & HK2).
    exists s1, l1, s2, l2. unfold r2, r1. rewrite Hr1. cbn [fst snd].
    rewrite Hr2. cbn [snd].
    repeat split; try assumption.
    + rewrite HK1. do 2 f_equal. field.
    + rewrite HK2. do 2 f_equal. field.
  - intros r1 r2.
    destruct (Var3D_first_call_xx5 in_raises_elementwise 0 ltac:(lra))
      as (s1 & l1 & Hr1 & _).
    unfold r2, r1. rewrite Hr1. cbn [fst]. split; [reflexivity|].
    apply Var3D_run_raised. reflexivity.
Qed.

(** [Var3D(xB=2)] called twice on [xx5] with unit noise.  Where the test on
    [B] raises for an array, the first call leaves [2*I] in the closure and
    the second call raises [ValueError] with the closure and the statistics
    as they were.  Where the test lets the array pass, the second call
    leaves the twice-scaled [4*I]. *)
Lemma Var3D_rescales_B_at_every_call_witness :
  (let c1 := fst (Var3D_assimilator (LA:=LA2) unit_corr_length
                    in_raises_elementwise (Var3D B_None (Fin 2)) empty_stats
                    (hmm_id 1) xx5 [fv 3 4]) in
   c1 = mkVar3D (B_arr (diag2 2)) (Fin 2)
   /\ Var3D_assimilator (LA:=LA2) unit_corr_length in_raises_elementwise c1
        empty_stats (hmm_id 1) xx5 [fv 3 4]
      = (mkVar3D (B_arr (diag2 2)) (Fin 2), (empty_stats, Raised ValueError)))
  /\ fst (Var3D_assimilator (LA:=LA2) unit_corr_length in_raises_never
            (fst (Var3D_assimilator (LA:=LA2) unit_corr_length in_raises_never
                    (Var3D B_None (Fin 2)) empty_stats (hmm_id 1) xx5 [fv 3 4]))
            empty_stats (hmm_id 1) xx5 [fv 3 4])
     = mkVar3D (B_arr (diag2 4)) (Fin 2).
Proof.
  split.
  - intros c1.
    destruct (Var3D_rescales_B_at_every_call (LA:=LA2) unit_corr_length
                in_raises_elementwise B_None (Fin 2) empty_stats empty_stats
                (hmm_id 1) (hmm_id 1) xx5 xx5 [fv 3 4] [fv 3 4] (diag2 2)
                (resolve_B_clim_xx5 in_raises_elementwise 2))
      as (_ & Hc1 & Hr2).
    split; [exact Hc1 | exact Hr2].
  - destruct (Var3D_rescales_B_at_every_call (LA:=LA2) unit_corr_length
                in_raises_never B_None (Fin 2) empty_stats empty_stats
                (hmm_id 1) (hmm_id 1) xx5 xx5 [fv 3 4] [fv 3 4] (diag2 2)
                (resolve_B_clim_xx5 in_raises_never 2))
      as (_ & _ & Hc2 & _).
    rewrite Hc2. f_equal. f_equal. dim2_unfold. autorewrite with dim2.
    apply diag2_eq. lra.
Defined.

(** With unit noise the gains of the two calls differ: [2/3 * I], then
    [4/5 * I]. *)
Lemma Var3D_second_call_other_gain_example :
  let r1 := Var3D_assimilator (LA:=LA2) unit_corr_length in_raises_never
              (Var3D B_None (Fin 2)) empty_stats (hmm_id 1) xx5 [fv 3 4] in
  let r2 := Var3D_assimilator (LA:=LA2) unit_corr_length in_raises_never
              (fst r1) empty_stats (hmm_id 1) xx5 [fv 3 4] in
  exists s1 l1 s2 l2,
    snd r1 = (s1, Done l1) /\ snd r2 = (s2, Done l2)
    /\ v3_KG l1 = Some (diag2 (2 / 3)) /\ v3_KG l2 = Some (diag2 (4 / 5)).
Proof.
  intros r1 r2.
  destruct (Var3D_first_call_xx5 in_raises_never 1 ltac:(lra))
    as (s1 & l1 & Hr1 & HB1 & HK1).
  destruct (Var3D_second_call_xx5 1 ltac:(lra)) as (s2 & l2 & Hr2 & HB2 & HK2).
  exists s1, l1, s2, l2. unfold r2, r1. rewrite Hr1. cbn [fst snd].
  rewrite Hr2. cbn [snd].
  repeat split.
  - rewrite HK1. do 2 f_equal. field.
  - rewrite HK2. do 2 f_equal. field.
Qed.

(** ** The anchor of the sigmoid in [OptInterp] *)

(** C2, at an input.  [OptInterp] on [xx5], the identity observed with unit
    noise: [PC = I], [KG = I/2], [P = (I - KG @ H) @ PC = I/2].  At the
    observation tick [k = 2] the sigmoid is fitted again at
    [trace(P)/trace(PC) = 1/2], so [SM(2) = 1/2] and the covariance assessed
    is [2*PC*SM(2) = I], of twice the trace of [P]; the anchor
    [trace(P)/trace(2*PC)] is [1/4]. *)
Theorem OptInterp_refit_anchor_evaluated :
  exists stats' l older mu,
    OptInterp_assimilator (LA:=LA2) unit_corr_length empty_stats (hmm_id 1)
      xx5 [fv 3 4] = (stats', Done l)
    /\ oi_PC l = diag2 1
    /\ oi_P l = diag2 (1 / 2)
    /\ oi_SM l = fit_sigmoid (Fin (1 / 2)) (Fin 1) (Fin 2)
    /\ oi_SM l (Fin 2) = Fin (1 / 2)
    /\ xdiv (trace (oi_P l)) (trace (mscale (Fin 2) (oi_PC l))) = Fin (1 / 4)
    /\ assessments stats'
       = older ++ [mkAssess 2 (Some 0%nat) None mu (CovArr (diag2 1))].
Proof.
  destruct (OptInterp_run_total (LA:=LA2) unit_corr_length empty_stats
              (hmm_id 1) xx5 [fv 3 4] [tick1] eq_refl (tick1_in_range _))
    as (s1 & l1 & Hrun1).
  destruct (OptInterp_refit_anchor (LA:=LA2) unit_corr_length _ _ _ _ _
              tick2 0%nat (fv 3 4) _ _ Hrun1 eq_refl eq_refl)
    as (s2 & l2 & Hrun2 & HSM & Hlog).
  destruct (OptInterp_run_Done _ _ _ _ _ _ _ _ Hrun2)
    as (_ & _ & _ & HPC & _ & HP & _).
  assert (HPC' : oi_PC l2 = diag2 1).
  { rewrite HPC. dim2_unfold. now autorewrite with dim2. }
  assert (HP' : oi_P l2 = diag2 (1 / 2)).
  { rewrite HP. dim2_unfold. autorewrite with dim2.
    rewrite m2_mrdiv_diag by lra. autorewrite with dim2.
    apply diag2_eq. field. }
  assert (HSM' : oi_SM l2 = fit_sigmoid (Fin (1 / 2)) (Fin 1) (Fin 2)).
  { rewrite HSM. dim2_unfold. autorewrite with dim2.
    rewrite m2_mrdiv_diag by lra. autorewrite with dim2.
    rewrite xdiv_fin by lra. do 2 f_equal. field. }
  assert (HS2 : oi_SM l2 (Fin 2) = Fin (1 / 2)).
  { rewrite HSM'. apply fit_sigmoid_anchor; lra. }
  exists s2, l2. eexists. eexists.
  split; [exact Hrun2|]. split; [exact HPC'|]. split; [exact HP'|].
  split; [exact HSM'|]. split; [exact HS2|]. split.
  - rewrite HP', HPC'. dim2_unfold. autorewrite with dim2.
    rewrite xdiv_fin by lra. f_equal. field.
  - rewrite Hlog. change (IZR (tk_k tick2)) with 2. rewrite HS2.
    dim2_unfold. autorewrite with dim2.
    replace (1 / 2 * (2 * 1)) with 1 by field.
    apply (app_assoc (assessments s1) [_] [_]).
Qed.

(** ** More runs on [xx5] *)

(** The four assessments of [OptInterp] over the two ticks. *)
Lemma OptInterp_assessment_order_witness :
  exists stats' l,
    OptInterp_run (LA:=LA2) unit_corr_length empty_stats (hmm_id 1) xx5
      [fv 3 4] ticks2 = (stats', Done l)
    /\ map assessment_head (assessments stats')
       = [(0%Z, None, None); (1%Z, None, None);
          (2%Z, Some 0%nat, Some "f"%string); (2%Z, Some 0%nat, None)].
Proof.
  destruct (OptInterp_assessment_order (LA:=LA2) unit_corr_length empty_stats
              (hmm_id 1) xx5 [fv 3 4] ticks2 eq_refl (ticks2_in_range _))
    as (s & l & Hrun & Hlog).
  exists s, l. split; [exact Hrun | exact Hlog].
Defined.

(** The four assessments of [Var3D] over the two ticks. *)
Lemma Var3D_assessment_order_witness :
  exists stats' l,
    Var3D_run (LA:=LA2) unit_corr_length in_raises_elementwise
      (Var3D B_None (Fin 1)) empty_stats (hmm_id 1) xx5 [fv 3 4] ticks2
    = (mkVar3D (B_arr (diag2 1)) (Fin 1), (stats', Done l))
    /\ map assessment_head (assessments stats')
       = [(0%Z, None, None); (1%Z, None, None);
          (2%Z, Some 0%nat, Some "f"%string); (2%Z, Some 0%nat, None)].
Proof.
  destruct (Var3D_assessment_order (LA:=LA2) unit_corr_length
              in_raises_elementwise (Var3D B_None (Fin 1)) empty_stats
              (hmm_id 1) xx5 [fv 3 4] ticks2 (diag2 1)
              (resolve_B_clim_xx5 in_raises_elementwise 1)
              (ticks2_in_range _))
    as (s & l & Hrun & Hlog).
  exists s, l. split; [exact Hrun | exact Hlog].
Defined.

(** [OptInterp] on [xx5] without any observation: the second tick raises. *)
Lemma OptInterp_missing_observation_witness :
  exists stats_pre l,
    OptInterp_run (LA:=LA2) unit_corr_length empty_stats (hmm_id 1) xx5 []
      [tick1] = (stats_pre, Done l)
    /\ OptInterp_run (LA:=LA2) unit_corr_length empty_stats (hmm_id 1) xx5 []
         ([tick1] ++ [tick2])
       = (assess stats_pre 2 (Some 0%nat) (Some "f"%string) (fv 0 0)
            (CovArr (diag2 1)),
          Raised IndexError).
Proof.
  destruct (OptInterp_missing_observation (LA:=LA2) unit_corr_length
              empty_stats (hmm_id 1) xx5 [] [tick1] [] tick2 0%nat
              eq_refl (tick1_in_range _) eq_refl eq_refl)
    as (s & l & Hrun & Hraise).
  exists s, l. split; [exact Hrun|]. rewrite Hraise.
  dim2_unfold. autorewrite with dim2. rewrite !t_mean0_xx5. reflexivity.
Defined.

(** [Var3D(xB=2)] on [xx5] without any observation: the second tick raises,
    and the closure holds [2*I]. *)
Lemma Var3D_missing_observation_witness :
  exists stats_pre l stats',
    Var3D_run (LA:=LA2) unit_corr_length in_raises_elementwise
      (Var3D B_None (Fin 2)) empty_stats (hmm_id 1) xx5 [] [tick1]
    = (mkVar3D (B_arr (diag2 2)) (Fin 2), (stats_pre, Done l))
    /\ Var3D_run (LA:=LA2) unit_corr_length in_raises_elementwise
         (Var3D B_None (Fin 2)) empty_stats (hmm_id 1) xx5 []
         ([tick1] ++ [tick2])
       = (mkVar3D (B_arr (diag2 2)) (Fin 2), (stats', Raised IndexError)).
Proof.
  destruct (Var3D_missing_observation (LA:=LA2) unit_corr_length
              in_raises_elementwise (Var3D B_None (Fin 2)) empty_stats
              (hmm_id 1) xx5 [] [tick1] [] tick2 0%nat (diag2 2)
              (resolve_B_clim_xx5 in_raises_elementwise 2)
              (tick1_in_range _) eq_refl eq_refl)
    as (s & l & Hrun & Hraise).
  exists s, l. eexists. split; [exact Hrun | exact Hraise].
Defined.

(** The covariance that [OptInterp] reports after the analysis on [xx5]
    with unit noise: [SM = 1/2] at the anchor, times [2*I]. *)
Lemma OptInterp_analysis_covariance_witness :
  exists stats' l stats'' l' mu,
    OptInterp_run (LA:=LA2) unit_corr_length empty_stats (hmm_id 1) xx5
      [fv 3 4] [tick1] = (stats', Done l)
    /\ OptInterp_run (LA:=LA2) unit_corr_length empty_stats (hmm_id 1) xx5
         [fv 3 4] ([tick1] ++ [tick2]) = (stats'', Done l')
    /\ assessments stats''
       = assessments stats'
         ++ [mkAssess 2 (Some 0%nat) (Some "f"%string) (fv 0 0)
               (CovArr (diag2 1));
             mkAssess 2 (Some 0%nat) None mu (CovArr (diag2 1))].
Proof.
  destruct (OptInterp_run_total (LA:=LA2) unit_corr_length empty_stats
              (hmm_id 1) xx5 [fv 3 4] [tick1] eq_refl (tick1_in_range _))
    as (s & l & Hrun).
  destruct (OptInterp_analysis_covariance (LA:=LA2) unit_corr_length
              empty_stats (hmm_id 1) xx5 [fv 3 4] [tick1] tick2 0%nat
              (fv 3 4) s l Hrun eq_refl eq_refl)
    as (s' & l' & mu & Hrun' & Hlog).
  exists s, l, s', l', mu. split; [exact Hrun|]. split; [exact Hrun'|].
  rewrite Hlog. do 2 f_equal.
  - dim2_unfold. autorewrite with dim2. rewrite !t_mean0_xx5. reflexivity.
  - do 3 f_equal. dim2_unfold. autorewrite with dim2.
    rewrite m2_mrdiv_diag by lra. autorewrite with dim2.
    rewrite xdiv_fin by lra.
    replace ((2 * ((1 - 1 / (1 + 1) * 1) * 1)) / (2 * 1)) with (1 / 2)
      by field.
    rewrite fit_sigmoid_anchor by lra. autorewrite with dim2.
    apply diag2_eq. field.
Defined.

(** One forecast tick of [Var3D] on [xx5]. *)
Lemma Var3D_forecast_covariances_witness :
  exists stats' l stats'' l',
    Var3D_run (LA:=LA2) unit_corr_length in_raises_elementwise
      (Var3D B_None (Fin 1)) empty_stats (hmm_id 1) xx5 [fv 3 4] []
    = (mkVar3D (B_arr (diag2 1)) (Fin 1), (stats', Done l))
    /\ Var3D_run (LA:=LA2) unit_corr_length in_raises_elementwise
         (Var3D B_None (Fin 1)) empty_stats (hmm_id 1) xx5 [fv 3 4]
         ([] ++ [tick1])
       = (mkVar3D (B_arr (diag2 1)) (Fin 1), (stats'', Done l'))
    /\ v3_SM l' = v3_SM l /\ v3_KG l' = v3_KG l
    /\ map a_Cov (assessments stats'')
       = map a_Cov (assessments stats')
         ++ [CovArr (mscale (v3_SM l (Fin 1)) (diag2 2))].
Proof.
  destruct (Var3D_run_nil (LA:=LA2) unit_corr_length in_raises_elementwise
              (Var3D B_None (Fin 1)) empty_stats (hmm_id 1) xx5 [fv 3 4]
              (diag2 1) (resolve_B_clim_xx5 in_raises_elementwise 1))
    as (s & l & Hrun & _).
  destruct (Var3D_forecast_covariances (LA:=LA2) unit_corr_length
              in_raises_elementwise _ _ empty_stats (hmm_id 1) xx5 [fv 3 4]
              [] [tick1] s l Hrun
              (fun tk Hin => match Hin with
                             | or_introl e => f_equal tk_kObs (eq_sym e)
                             | or_intror f => False_ind _ f
                             end))
    as (s' & l' & Hrun' & HSM & HKG & Hlog).
  exists s, l, s', l'. split; [exact Hrun|]. split; [exact Hrun'|].
  split; [exact HSM|]. split; [exact HKG|].
  rewrite Hlog. cbn [map]. do 3 f_equal.
  dim2_unfold. autorewrite with dim2. f_equal. apply diag2_eq. lra.
Defined.

(** [Var3D] on [xx5] from the initial covariance [3*I]: the anchor is
    [6/4], and the covariance of the first forecast is [nan * 2*I]. *)
Lemma Var3D_nan_forecast_covariance_witness :
  exists stats' l,
    Var3D_run (LA:=LA2) unit_corr_length in_raises_elementwise
      (Var3D B_None (Fin 1)) empty_stats hmm_wide xx5 [fv 3 4] [tick1]
    = (mkVar3D (B_arr (diag2 1)) (Fin 1), (stats', Done l))
    /\ map a_Cov (assessments stats')
       = [CovArr (diag2 3);
          CovArr (mkM2 NaN NaN NaN NaN)].
Proof.
  assert (Hout : anchor_out
                   (xdiv (trace (LinAlg:=LA2) (full (X0_C hmm_wide)))
                         (trace (mscale (Fin 2) (cov xx5))))).
  { unfold hmm_wide. dim2_unfold. autorewrite with dim2.
    rewrite xdiv_fin by lra. right. lra. }
  destruct (Var3D_nan_forecast_covariance (LA:=LA2) unit_corr_length
              in_raises_elementwise (Var3D B_None (Fin 1)) empty_stats
              hmm_wide xx5 [fv 3 4] [tick1] (diag2 1)
              (resolve_B_clim_xx5 in_raises_elementwise 1) Hout
              (fun tk Hin => match Hin with
                             | or_introl e => f_equal tk_kObs (eq_sym e)
                             | or_intror f => False_ind _ f
                             end))
    as (s & l & Hrun & Hlog).
  exists s, l. split; [exact Hrun|]. rewrite Hlog.
  cbn [map app assessments empty_stats]. unfold hmm_wide.
  dim2_unfold. autorewrite with dim2. reflexivity.
Defined.

(** [OptInterp] on [xx5], the identity observed without noise: the analysis
    returns the observation (3,4). *)
Lemma OptInterp_perfect_observation_witness :
  exists stats' l stats'' l',
    OptInterp_run (LA:=LA2) unit_corr_length empty_stats (hmm_id 0) xx5
      [fv 3 4] [tick1] = (stats', Done l)
    /\ OptInterp_run (LA:=LA2) unit_corr_length empty_stats (hmm_id 0) xx5
         [fv 3 4] ([tick1] ++ [tick2]) = (stats'', Done l')
    /\ oi_mu l' = fv 3 4.
Proof.
  destruct (OptInterp_run_total (LA:=LA2) unit_corr_length empty_stats
              (hmm_id 0) xx5 [fv 3 4] [tick1] eq_refl (tick1_in_range _))
    as (s & l & Hrun).
  assert (HPC : mdivs (LinAlg:=LA2)
                  (tmatmul (tsubv xx5 (mean0 xx5)) (tsubv xx5 (mean0 xx5)))
                  (Fin (IZR (shape0 xx5 - 1))) = diag2 1).
  { dim2_unfold. now autorewrite with dim2. }
  assert (Hmu : mean0 (LinAlg:=LA2) xx5 = fv 0 0).
  { dim2_unfold. apply t_mean0_xx5. }
  destruct (OptInterp_perfect_observation (LA:=LA2) (LL:=LL2)
              unit_corr_length empty_stats (hmm_id 0) xx5 [fv 3 4] [tick1]
              tick2 0%nat (fv 3 4) s l (diag2 1)
              (hmm_id_Obs 0) eq_refl eq_refl
              ltac:(rewrite HPC; now repeat split)
              (conj eq_refl (conj eq_refl eq_refl))
              ltac:(dim2_unfold; autorewrite with dim2; apply diag2_eq; lra)
              ltac:(dim2_unfold; autorewrite with dim2; apply diag2_eq; lra)
              ltac:(rewrite Hmu; exact (conj eq_refl eq_refl))
              (conj eq_refl eq_refl) Hrun eq_refl eq_refl)
    as (s' & l' & Ca & Hrun' & _ & Hmu' & _).
  exists s, l, s', l'. split; [exact Hrun|]. split; [exact Hrun'|]. exact Hmu'.
Defined.

End Dim2Runs.
